(** * Dynamic-to-static specialisation of Relay calls

    A shallow embedding of [src/relay/transforms/dynamic_to_static.cc]:
    the rewrite hook [Rewrite_], the overridden [DispatchVisitExpr], and the
    convergence driver [DynamicToStatic].

    Relay expressions are immutable, reference-counted objects that are
    compared by pointer.  They are modelled as cells of a store: a reference
    is the index of a cell, allocation appends a cell, and no cell is ever
    overwritten. *)

From Stdlib Require Import ZArith Lia.
From stdpp Require Import base option list gmap strings.

Open Scope Z_scope.
Open Scope string_scope.
Open Scope nat_scope.

(** ** Outcomes *)

(** [Fatal] is a failed [CHECK] (or an error raised by a collaborator pass),
    carrying its message.  [Undefined] marks steps that have no defined
    behaviour in C++ (a null or dangling pointer dereference, a raw read past
    the end of a buffer).  [OutOfFuel] belongs to the embedding only: the
    traversal recurses on a fuel argument. *)
Inductive result (A : Type) : Type :=
| Ok (a : A)
| Fatal (msg : string)
| Undefined
| OutOfFuel.
Arguments Ok {A} a.
Arguments Fatal {A} msg.
Arguments Undefined {A}.
Arguments OutOfFuel {A}.

Definition is_Ok {A} (r : result A) : bool :=
  match r with Ok _ => true | _ => false end.

Definition rbind {A B} (r : result A) (k : A → result B) : result B :=
  match r with
  | Ok a => k a
  | Fatal msg => Fatal msg
  | Undefined => Undefined
  | OutOfFuel => OutOfFuel
  end.

(** ** Data model *)

Definition ref := nat.

(** An interned operator handle: [Op::Get] returns the same handle for the
    same name, so comparing handles is comparing names. *)
Inductive Op : Type := OpHandle (name : string).

#[global] Instance Op_eq_dec : EqDecision Op.
Proof. solve_decision. Defined.

Module OpRegistry.
Definition Get (name : string) : Op := OpHandle name.
End OpRegistry.

(** A tensor: its shape, its element type and its elements in row-major
    order.  [ndim] is the [ndim] field of the [DLTensor]. *)
Record NDArray : Type := mkNDArray {
  shape : list Z;
  dtype : string;
  data : list Z
}.

Definition ndim (a : NDArray) : Z := Z.of_nat (length (shape a)).

Inductive RelayType : Type :=
| TensorType (dims : list Z) (elem : string)
| OpaqueType (tag : string).

Record ReshapeAttrs : Type := mkReshapeAttrs {
  newshape : list Z;
  reverse : bool
}.

Record TileAttrs : Type := mkTileAttrs {
  reps : list Z
}.

Record TopKAttrs : Type := mkTopKAttrs {
  k : option Z;
  axis : Z;
  ret_type : string;
  is_ascend : bool;
  topk_dtype : string
}.

(** The attribute payload of a call.  [NullAttrs] is the null [Attrs]
    reference; [OtherAttrs] stands for every attribute class this pass never
    looks into. *)
Inductive Attrs : Type :=
| NullAttrs
| AttrsReshape (a : ReshapeAttrs)
| AttrsTile (a : TileAttrs)
| AttrsTopK (a : TopKAttrs)
| OtherAttrs (tag : string).

(** [attrs.as<TopKAttrs>()]: the payload when it is of that class, null
    otherwise. *)
Definition as_TopKAttrs (a : Attrs) : option TopKAttrs :=
  match a with AttrsTopK p => Some p | _ => None end.

(** Expression nodes.  Children are references into the store. *)
Inductive Expr : Type :=
| Other (tag : string)
| Constant (value : NDArray)
| Call (op : Op) (args : list ref) (attrs : Attrs) (type_args : list RelayType)
| Function (params : list ref) (body : ref) (fn_ret_type : option RelayType)
           (type_params : list RelayType) (fn_attrs : Attrs).

Definition as_ConstantNode (e : Expr) : option NDArray :=
  match e with Constant v => Some v | _ => None end.

Definition is_FunctionNode (e : Expr) : bool :=
  match e with Function _ _ _ _ _ => true | _ => false end.

Definition children (e : Expr) : list ref :=
  match e with
  | Other _ | Constant _ => []
  | Call _ args _ _ => args
  | Function params body _ _ _ => params ++ [body]
  end.

(** ** State of one traversal

    [heap] is the store of expression nodes, [memo_] the mutator's
    memoisation table (input node to rewritten node) and [stdout] the values
    written to the standard output stream, oldest first, one per line. *)
Record State : Type := mkState {
  heap : list Expr;
  memo_ : gmap ref ref;
  stdout : list Z
}.

Definition M (A : Type) : Type := State → result (A * State).

Definition ret {A} (a : A) : M A := λ st, Ok (a, st).

Definition bind {A B} (c : M A) (f : A → M B) : M B :=
  λ st, rbind (c st) (λ p, f p.1 p.2).

Definition fail {A} (msg : string) : M A := λ _, Fatal msg.

Definition undefined {A} : M A := λ _, Undefined.

Declare Scope visit_scope.
Delimit Scope visit_scope with visit.
Notation "x <- c ;; f" := (bind c (λ x, f))
  (at level 100, c at next level, right associativity) : visit_scope.
Notation "c ;;; f" := (bind c (λ _, f))
  (at level 100, right associativity) : visit_scope.
Open Scope visit_scope.

(** Dereference a node pointer. *)
Definition deref (r : ref) : M Expr :=
  λ st, match heap st !! r with
        | Some e => Ok (e, st)
        | None => Undefined
        end.

(** Allocate a fresh node; its reference differs from every existing one. *)
Definition alloc (e : Expr) : M ref :=
  λ st, Ok (length (heap st),
            {| heap := heap st ++ [e]; memo_ := memo_ st; stdout := stdout st |}).

(** [std::cout << v << std::endl]. *)
Definition print (v : Z) : M unit :=
  λ st, Ok (tt, {| heap := heap st; memo_ := memo_ st; stdout := stdout st ++ [v] |}).

Definition memo_find (r : ref) : M (option ref) :=
  λ st, Ok (memo_ st !! r, st).

Definition memo_set (r v : ref) : M unit :=
  λ st, Ok (tt, {| heap := heap st; memo_ := <[r := v]> (memo_ st); stdout := stdout st |}).

Definition lift {A} (r : result A) : M A :=
  λ st, rbind r (λ a, Ok (a, st)).

(** [CHECK_EQ(a, b)]. *)
Definition CHECK_EQ (a b : Z) (msg : string) : M unit :=
  if decide (a = b) then ret tt else fail msg.

(** [args[i]] on a TVM [Array].  The container is not among the sources; its
    subscript is taken to check its bounds. *)
Definition index (args : list ref) (i : nat) : M ref :=
  match args !! i with
  | Some a => ret a
  | None => fail "IndexError: indexing on an array"
  end.

Fixpoint mapM {A B} (f : A → M B) (l : list A) : M (list B) :=
  match l with
  | [] => ret []
  | x :: xs => y <- f x ;; ys <- mapM f xs ;; ret (y :: ys)
  end.

Fixpoint rmapM {A B} (f : A → result B) (l : list A) : result (list B) :=
  match l with
  | [] => Ok []
  | x :: xs => rbind (f x) (λ y, rbind (rmapM f xs) (λ ys, Ok (y :: ys)))
  end.

(** The tensors the rules read: as many elements as the shape announces. *)
Definition numel (a : NDArray) : Z := foldr Z.mul 1%Z (shape a).

Definition tensor_ok (a : NDArray) : Prop := Z.of_nat (length (data a)) = numel a.

(** ** Helpers of [pattern_util.h] *)

(** Modelled from the spec: [ToScalar] of [pattern_util.h] is not among the
    sources.  The rules "read element-wise" a tensor "of scalar integers":
    [ToScalar a i] is the element at flat position [i]. *)
Definition ToScalar (a : NDArray) (i : nat) : result Z :=
  match data a !! i with
  | Some v => Ok v
  | None => Undefined
  end.

(** Modelled from the spec: [ToVector] of [pattern_util.h] is not among the
    sources.  It yields "the element-wise contents" of a shape tensor, which
    has to be a flat vector. *)
Definition ToVector (a : NDArray) : result (list Z) :=
  match shape a with
  | [len] => rmapM (ToScalar a) (seq 0 (Z.to_nat len))
  | _ => Fatal "This function should only used for shape tensor."
  end.

(** ** The conversion to [Integer] *)

(** [Integer(ToScalar(...))]: the scalar goes through the constructor
    [Integer(int)], which narrows it to a 32-bit C [int].  On the values an
    [int] holds the narrowing is the identity; past them it is written out
    as the two's-complement wrap-around. *)
Definition INT_MIN : Z := (-2147483648)%Z.
Definition INT_MAX : Z := 2147483647%Z.

Definition Integer (v : Z) : Z :=
  ((v - INT_MIN) mod 4294967296 + INT_MIN)%Z.

(** ** The rewrite hook *)

Definition dyn_reshape_op_ : Op := OpRegistry.Get "dyn.reshape".
Definition dyn_tile_op_ : Op := OpRegistry.Get "dyn.tile".
Definition dyn_topk_op_ : Op := OpRegistry.Get "dyn.topk".

(** [DynamicToStaticMutator::Rewrite_(const CallNode* pre, const Expr& post)]. *)
Definition Rewrite_ (pre post : ref) : M ref :=
  node <- deref post ;;
  match node with
  | Call op args attrs type_args =>
      if decide (op = dyn_reshape_op_) then
        a1 <- index args 1 ;;
        n1 <- deref a1 ;;
        match as_ConstantNode n1 with
        | Some shp =>
            CHECK_EQ (ndim shp) 1 "Check failed: shape->data->ndim == 1" ;;;
            v <- lift (ToVector shp) ;;
            a0 <- index args 0 ;;
            alloc (Call (OpRegistry.Get "reshape") [a0]
                     (AttrsReshape {| newshape := v; reverse := false |}) [])
        | None => ret post
        end
      else if decide (op = dyn_tile_op_) then
        a1 <- index args 1 ;;
        n1 <- deref a1 ;;
        match as_ConstantNode n1 with
        | Some rps =>
            CHECK_EQ (ndim rps) 1 "Check failed: reps->data->ndim == 1" ;;;
            v <- lift (ToVector rps) ;;
            a0 <- index args 0 ;;
            alloc (Call (OpRegistry.Get "tile") [a0]
                     (AttrsTile {| reps := v |}) [])
        | None => ret post
        end
      else if decide (op = dyn_topk_op_) then
        a1 <- index args 1 ;;
        n1 <- deref a1 ;;
        match as_ConstantNode n1 with
        | Some kc =>
            match as_TopKAttrs attrs with
            | Some param =>
                kv <- lift (ToScalar kc 0) ;;
                let new_k := Integer kv in
                print new_k ;;;
                a0 <- index args 0 ;;
                alloc (Call (OpRegistry.Get "topk") [a0]
                         (AttrsTopK {| k := Some new_k;
                                       axis := axis param;
                                       ret_type := ret_type param;
                                       is_ascend := is_ascend param;
                                       topk_dtype := topk_dtype param |}) [])
            | None => fail "Check failed: param"
            end
        | None => ret post
        end
      else ret post
  | _ => undefined
  end.

(** ** The mutation engine *)

(** Modelled from the spec: [MixedModeMutator::DispatchVisitExpr] and the
    [ExprMutator] cases it dispatches to are not among the sources.  The
    engine rewrites the children of a node first, returns the node itself
    when every child came back identical and rebuilds it otherwise, and
    calls the rewrite hook on every call node after its arguments.  [visit]
    is the (virtual) [VisitExpr] used for the children. *)
Definition MixedModeMutator_DispatchVisitExpr (visit : ref → M ref) (e : ref) : M ref :=
  node <- deref e ;;
  match node with
  | Other _ | Constant _ => ret e
  | Call op args attrs type_args =>
      new_args <- mapM visit args ;;
      post <- (if decide (new_args = args) then ret e
               else alloc (Call op new_args attrs type_args)) ;;
      Rewrite_ e post
  | Function params body rt type_params fa =>
      new_params <- mapM visit params ;;
      new_body <- visit body ;;
      if decide (new_params = params ∧ new_body = body) then ret e
      else alloc (Function new_params new_body rt type_params fa)
  end.

(** [DynamicToStaticMutator::DispatchVisitExpr]: [NullValue<Type>()] is
    [None]. *)
Definition DispatchVisitExpr (visit : ref → M ref) (e : ref) : M ref :=
  post <- MixedModeMutator_DispatchVisitExpr visit e ;;
  node <- deref post ;;
  match node with
  | Function params body _ type_params fa =>
      alloc (Function params body None type_params fa)
  | _ => ret post
  end.

(** Modelled from the spec: [MixedModeMutator::VisitExpr] is not among the
    sources.  Each distinct node is dispatched once; later visits reuse the
    memoised result. *)
Fixpoint VisitExpr (fuel : nat) (e : ref) : M ref :=
  match fuel with
  | O => λ _, OutOfFuel
  | S fuel' =>
      cached <- memo_find e ;;
      match cached with
      | Some r => ret r
      | None =>
          r <- DispatchVisitExpr (VisitExpr fuel') e ;;
          memo_set e r ;;;
          ret r
      end
  end.

Definition with_memo (t : gmap ref ref) (st : State) : State :=
  {| heap := heap st; memo_ := t; stdout := stdout st |}.

(** [DynamicToStaticMutator().Mutate(e)]: a mutator with an empty table is
    built, used for one traversal and destroyed. *)
Definition Mutate (e : ref) : M ref :=
  λ st, rbind (VisitExpr (S e) e (with_memo ∅ st))
              (λ p, Ok (p.1, with_memo ∅ p.2)).

(** ** The convergence driver *)

Record IRModule : Type := mkIRModule {
  functions : gmap string ref
}.

(** [Map::operator[]].  The container is not among the sources; its
    subscript is taken to fail on an absent key. *)
Definition Map_at `{Countable K} {V} (t : gmap K V) (key : K) : M V :=
  match t !! key with
  | Some v => ret v
  | None => fail "Check failed: cannot find the corresponding key in the Map"
  end.

(** [Downcast<BaseFunc>(e)], taken to check the class of the node. *)
Definition Downcast_BaseFunc (e : ref) : M ref :=
  node <- deref e ;;
  if is_FunctionNode node then ret e else fail "Check failed: Downcast to BaseFunc failed".

(** Modelled from the spec: [IRModuleNode::Update] is not among the sources.
    It is the "point-update of one function's body by identifier, preserving
    all other entries". *)
Definition Update (m : IRModule) (gv : string) (func : ref) : IRModule :=
  {| functions := <[gv := func]> (functions m) |}.

(** The loop [for (auto kv : m->functions) vars.Set(kv.second, kv.first)]. *)
Definition reverse_map (m : IRModule) : gmap ref string :=
  map_fold (λ gv func vars, <[func := gv]> vars) ∅ (functions m).

(** The local variables of [DynamicToStatic]. *)
Record Locals : Type := mkLocals {
  pre : ref;
  expr : ref;
  m : IRModule;
  i : Z
}.

Definition loop_limit : Z := 1000.

Section Driver.
(** [transform::InferType()] and [transform::FoldConstant()]. *)
Variables infer_type fold_const : IRModule → M IRModule.

(** One execution of the body of the [do] loop. *)
Definition round (gv : string) (l : Locals) : M Locals :=
  let pre' := expr l in
  m1 <- infer_type (m l) ;;
  m2 <- fold_const m1 ;;
  func <- Map_at (functions m2) gv ;;
  expr' <- Mutate func ;;
  base <- Downcast_BaseFunc expr' ;;
  ret {| pre := pre'; expr := expr'; m := Update m2 gv base; i := (i l + 1)%Z |}.

(** The loop condition [pre != expr && i < 1000]. *)
Definition continue (l : Locals) : bool :=
  bool_decide (pre l ≠ expr l) && bool_decide (i l < loop_limit)%Z.

Fixpoint do_while (fuel : nat) (gv : string) (l : Locals) : M Locals :=
  match fuel with
  | O => λ _, OutOfFuel
  | S fuel' =>
      l' <- round gv l ;;
      if continue l' then do_while fuel' gv l' else ret l'
  end.

Definition initial (f : ref) (md : IRModule) : Locals :=
  {| pre := f; expr := f; m := md; i := 0%Z |}.

(** [DynamicToStatic] up to its [return]: the locals when the loop ends. *)
Definition DynamicToStatic_run (f : ref) (md : IRModule) : M Locals :=
  gv <- Map_at (reverse_map md) f ;;
  do_while (Z.to_nat loop_limit) gv (initial f md).

Definition DynamicToStatic (f : ref) (md : IRModule) : M ref :=
  l <- DynamicToStatic_run f md ;;
  ret (expr l).

(** The locals after [n] executions of the loop body, whatever the loop
    condition says. *)
Fixpoint after_rounds (n : nat) (gv : string) (l : Locals) : M Locals :=
  match n with
  | O => ret l
  | S n' => l' <- round gv l ;; after_rounds n' gv l'
  end.
End Driver.

(** ** The pass *)

(** [Downcast<Function>(e)], taken to check the class of the node. *)
Definition Downcast_Function (e : ref) : M ref :=
  node <- deref e ;;
  if is_FunctionNode node then ret e else fail "Check failed: Downcast to Function failed".

(** The pass context handed to a function pass; the pass ignores it. *)
Record PassContext : Type := mkPassContext {
  opt_level : Z
}.

Section Pass.
Variables infer_type fold_const : IRModule → M IRModule.

(** The [pass_func] of [transform::ConvertDynamicToStatic]. *)
Definition pass_func (f : ref) (md : IRModule) (pc : PassContext) : M ref :=
  e <- DynamicToStatic infer_type fold_const f md ;;
  Downcast_Function e.
End Pass.

(** A pass that leaves the module as it is. *)
Definition no_op_pass (md : IRModule) : M IRModule := ret md.

(** ** Sample programs *)

Definition state_of (h : list Expr) : State := {| heap := h; memo_ := ∅; stdout := [] |}.

Definition shape_2_3 : NDArray := {| shape := [2%Z]; dtype := "int64"; data := [2%Z; 3%Z] |}.

(** [fn (x) -> Tensor[(2, 3)] { dyn.reshape(x, [2, 3]) }] *)
Definition reshape_program : list Expr :=
  [ Other "x";
    Constant shape_2_3;
    Call dyn_reshape_op_ [0; 1] NullAttrs [];
    Function [0] 2 (Some (TensorType [2%Z; 3%Z] "float32")) [] NullAttrs ].

Definition main_module (f : ref) : IRModule := {| functions := {["main" := f]} |}.

(** [fn (x, y) { dyn.reshape(x, y) }]: the shape is a runtime variable. *)
Definition var_program : list Expr :=
  [ Other "x";
    Other "y";
    Call dyn_reshape_op_ [0; 1] NullAttrs [];
    Function [0; 1] 2 None [] NullAttrs ].

(** A shape constant of rank 2, [[2, 3]] as a 1 x 2 matrix. *)
Definition shape_rank2 : NDArray :=
  {| shape := [1%Z; 2%Z]; dtype := "int64"; data := [2%Z; 3%Z] |}.

(** [fn (x) { dyn.reshape(x, [[2, 3]]) }] *)
Definition rank2_program : list Expr :=
  [ Other "x";
    Constant shape_rank2;
    Call dyn_reshape_op_ [0; 1] NullAttrs [];
    Function [0] 2 None [] NullAttrs ].

Definition topk_attrs : TopKAttrs :=
  {| k := None; axis := (-1)%Z; ret_type := "both"; is_ascend := false;
     topk_dtype := "int64" |}.

(** The scalar 3, and the one-element vector [3]. *)
Definition k_scalar : NDArray := {| shape := []; dtype := "int64"; data := [3%Z] |}.
Definition k_vector : NDArray := {| shape := [1%Z]; dtype := "int64"; data := [3%Z] |}.

(** [fn (x) { dyn.topk(x, kc) }] *)
Definition topk_program (kc : NDArray) : list Expr :=
  [ Other "x";
    Constant kc;
    Call dyn_topk_op_ [0; 1] (AttrsTopK topk_attrs) [];
    Function [0] 2 None [] NullAttrs ].

(** [fn (x) { reshape(x, newshape=[2, 3]) }]: nothing left to specialise. *)
Definition static_program : list Expr :=
  [ Other "x";
    Call (OpRegistry.Get "reshape") [0]
      (AttrsReshape {| newshape := [2%Z; 3%Z]; reverse := false |}) [];
    Function [0] 1 None [] NullAttrs ].

(** [dyn.tile(x, [2, 3])] *)
Definition tile_program : list Expr :=
  [ Other "x";
    Constant shape_2_3;
    Call dyn_tile_op_ [0; 1] NullAttrs [] ].

(** [fn () { fn (x) { x } }]: a function nested in a function, neither with
    a declared return type. *)
Definition nested_program : list Expr :=
  [ Other "x";
    Function [0] 0 None [] NullAttrs;
    Function [] 1 None [] NullAttrs ].

(** ** Vocabulary of the statements *)

(** The state after an allocation, and after a line of output. *)
Definition push (e : Expr) (st : State) : State :=
  {| heap := heap st ++ [e]; memo_ := memo_ st; stdout := stdout st |}.

Definition say (v : Z) (st : State) : State :=
  {| heap := heap st; memo_ := memo_ st; stdout := stdout st ++ [v] |}.

(** The static operator each rule substitutes for its dynamic target. *)
Definition static_counterpart (op : Op) : Op :=
  if decide (op = dyn_reshape_op_) then OpRegistry.Get "reshape"
  else if decide (op = dyn_tile_op_) then OpRegistry.Get "tile"
  else OpRegistry.Get "topk".

(** The operators the rule table targets. *)
Definition is_dynamic_target (op : Op) : bool :=
  bool_decide (op = dyn_reshape_op_) || bool_decide (op = dyn_tile_op_)
  || bool_decide (op = dyn_topk_op_).

(** Allocation order: a node only refers to nodes that existed before it. *)
Definition wf_heap (h : list Expr) : Prop :=
  ∀ r n, h !! r = Some n → Forall (λ c, c < r) (children n).

Definition valid_ref (r : ref) (st : State) : Prop := r < length (heap st).

Definition memo_ok (st : State) : Prop :=
  ∀ key v, memo_ st !! key = Some v → valid_ref v st.

Definition inv (st : State) : Prop := wf_heap (heap st) ∧ memo_ok st.

(** Nothing that exists is overwritten or taken back. *)
Definition extends (st st' : State) : Prop :=
  heap st `prefix_of` heap st' ∧ stdout st `prefix_of` stdout st'.

Definition grows {A} (c : M A) : Prop :=
  ∀ st a st', c st = Ok (a, st') → extends st st'.

(** An acceptable outcome: the traversal did not run out of fuel and, when it
    returned, it left a well-formed state and a result satisfying [V]. *)
Definition sound {A} (c : M A) (st : State) (V : A → State → Prop) : Prop :=
  match c st with
  | Ok (a, st') => inv st' ∧ V a st'
  | OutOfFuel => False
  | _ => True
  end.

(** A collaborator pass that terminates and keeps the store well formed. *)
Definition pass_ok (p : IRModule → M IRModule) : Prop :=
  ∀ md st, wf_heap (heap st) →
    match p md st with
    | Ok (_, st') => wf_heap (heap st')
    | OutOfFuel => False
    | _ => True
    end.

(** A rule fires on a call when its operator is a target and its argument 1
    is a constant; [no_rule_fires] says that neither is to be feared. *)
Definition no_rule_fires (h : list Expr) (node : Expr) : Prop :=
  match node with
  | Call op args _ _ =>
      is_dynamic_target op = false ∨
      ∃ a1 n1, args !! 1 = Some a1 ∧ h !! a1 = Some n1 ∧ as_ConstantNode n1 = None
  | _ => True
  end.

(** A checker for [wf_heap]. *)
Fixpoint check_from (r : nat) (h : list Expr) : bool :=
  match h with
  | [] => true
  | n :: h' => forallb (λ c, c <? r) (children n) && check_from (S r) h'
  end.

Definition check_heap (h : list Expr) : bool := check_from 0 h.

(** * Properties *)

(** ** Reasoning about the monad *)

Lemma bind_Ok {A B} (c : M A) (f : A → M B) st b st' :
  bind c f st = Ok (b, st') ↔ ∃ a st1, c st = Ok (a, st1) ∧ f a st1 = Ok (b, st').
Proof.
  unfold bind, rbind. split.
  - destruct (c st) as [[a st1]| | |]; try discriminate. eauto.
  - intros (a & st1 & -> & H). done.
Qed.

Lemma bind_step {A B} (c : M A) (f : A → M B) st a st1 :
  c st = Ok (a, st1) → bind c f st = f a st1.
Proof. unfold bind, rbind. by intros ->. Qed.

Lemma rmapM_ToScalar_seq a n j :
  j + n = length (data a) →
  rmapM (ToScalar a) (seq j n) = Ok (drop j (data a)).
Proof.
  revert j. induction n as [|n IH]; intros j Hj; simpl.
  - by rewrite drop_ge by lia.
  - unfold ToScalar at 1.
    destruct (data a !! j) as [v|] eqn:Hv.
    + simpl. rewrite IH by lia. simpl. by rewrite (drop_S _ _ _ Hv).
    + apply lookup_ge_None in Hv. lia.
Qed.

Lemma ToVector_flat a :
  ndim a = 1%Z → tensor_ok a → ToVector a = Ok (data a).
Proof.
  unfold ndim, tensor_ok, numel, ToVector. intros Hn Hok.
  destruct (shape a) as [|len [|? ?]]; simpl in *; try lia.
  rewrite Z.mul_1_r in Hok. subst len. rewrite Nat2Z.id.
  by rewrite rmapM_ToScalar_seq.
Qed.

Lemma ToScalar_scalar a :
  ndim a = 0%Z → tensor_ok a → ∃ v, data a = [v] ∧ ToScalar a 0 = Ok v.
Proof.
  unfold ndim, tensor_ok, numel, ToScalar. intros Hn Hok.
  destruct (shape a); simpl in *; try lia.
  destruct (data a) as [|v [|? ?]]; simpl in *; try lia. eauto.
Qed.

(** ** The rewrite hook, branch by branch *)


Lemma Integer_is_int v : (INT_MIN ≤ Integer v ≤ INT_MAX)%Z.
Proof.
  unfold Integer, INT_MIN, INT_MAX.
  pose proof (Z.mod_pos_bound (v - -2147483648) 4294967296 ltac:(lia)). lia.
Qed.

Ltac step_Rewrite :=
  unfold Rewrite_, bind, deref, index, CHECK_EQ, lift, ret, fail, alloc, print; simpl.

Lemma Rewrite_reshape_fires pre post st args attrs tys a0 a1 shp :
  heap st !! post = Some (Call dyn_reshape_op_ args attrs tys) →
  args !! 0 = Some a0 → args !! 1 = Some a1 →
  heap st !! a1 = Some (Constant shp) →
  ndim shp = 1%Z → tensor_ok shp →
  Rewrite_ pre post st =
    Ok (length (heap st),
        push (Call (OpRegistry.Get "reshape") [a0]
                (AttrsReshape {| newshape := data shp; reverse := false |}) []) st).
Proof.
  intros Hpost H0 H1 Ha1 Hn Hok. step_Rewrite.
  rewrite Hpost. simpl. rewrite H1. simpl. rewrite Ha1. simpl.
  rewrite decide_True by done. simpl. rewrite (ToVector_flat _ Hn Hok). simpl.
  rewrite H0. done.
Qed.

Lemma Rewrite_tile_fires pre post st args attrs tys a0 a1 rps :
  heap st !! post = Some (Call dyn_tile_op_ args attrs tys) →
  args !! 0 = Some a0 → args !! 1 = Some a1 →
  heap st !! a1 = Some (Constant rps) →
  ndim rps = 1%Z → tensor_ok rps →
  Rewrite_ pre post st =
    Ok (length (heap st),
        push (Call (OpRegistry.Get "tile") [a0]
                (AttrsTile {| reps := data rps |}) []) st).
Proof.
  intros Hpost H0 H1 Ha1 Hn Hok. step_Rewrite.
  rewrite Hpost. simpl. rewrite H1. simpl. rewrite Ha1. simpl.
  rewrite decide_True by done. simpl. rewrite (ToVector_flat _ Hn Hok). simpl.
  rewrite H0. done.
Qed.



Lemma Rewrite_reshape_bad_rank pre post st args attrs tys a1 shp :
  heap st !! post = Some (Call dyn_reshape_op_ args attrs tys) →
  args !! 1 = Some a1 →
  heap st !! a1 = Some (Constant shp) →
  ndim shp ≠ 1%Z →
  Rewrite_ pre post st = Fatal "Check failed: shape->data->ndim == 1".
Proof.
  intros Hpost H1 Ha1 Hn. step_Rewrite.
  rewrite Hpost. simpl. rewrite H1. simpl. rewrite Ha1. simpl.
  by rewrite decide_False by done.
Qed.

Lemma Rewrite_tile_bad_rank pre post st args attrs tys a1 rps :
  heap st !! post = Some (Call dyn_tile_op_ args attrs tys) →
  args !! 1 = Some a1 →
  heap st !! a1 = Some (Constant rps) →
  ndim rps ≠ 1%Z →
  Rewrite_ pre post st = Fatal "Check failed: reps->data->ndim == 1".
Proof.
  intros Hpost H1 Ha1 Hn. step_Rewrite.
  rewrite Hpost. simpl. rewrite H1. simpl. rewrite Ha1. simpl.
  by rewrite decide_False by done.
Qed.

Lemma Rewrite_not_target pre post st op args attrs tys :
  heap st !! post = Some (Call op args attrs tys) →
  is_dynamic_target op = false →
  Rewrite_ pre post st = Ok (post, st).
Proof.
  intros Hpost Hop. unfold is_dynamic_target in Hop.
  apply orb_false_elim in Hop as [[H1 H2]%orb_false_elim H3].
  apply bool_decide_eq_false in H1, H2, H3.
  step_Rewrite. rewrite Hpost. simpl.
  by rewrite !decide_False by done.
Qed.

Lemma Rewrite_not_constant pre post st op args attrs tys a1 n1 :
  heap st !! post = Some (Call op args attrs tys) →
  args !! 1 = Some a1 →
  heap st !! a1 = Some n1 →
  as_ConstantNode n1 = None →
  Rewrite_ pre post st = Ok (post, st).
Proof.
  intros Hpost H1 Ha1 Hn. step_Rewrite. rewrite Hpost. simpl.
  repeat case_decide; simpl; rewrite ?H1; simpl; rewrite ?Ha1; simpl; rewrite ?Hn; done.
Qed.

(** ** The store only grows *)

#[global] Instance extends_refl : Reflexive extends.
Proof. by intros st; split. Qed.

#[global] Instance extends_trans : Transitive extends.
Proof. intros a b c [? ?] [? ?]; split; etrans; eauto. Qed.

Lemma extends_length st st' : extends st st' → length (heap st) ≤ length (heap st').
Proof. intros [H _]. by apply prefix_length. Qed.

Lemma extends_lookup st st' r n :
  extends st st' → heap st !! r = Some n → heap st' !! r = Some n.
Proof. intros [H _] Hr. by eapply prefix_lookup_Some. Qed.

Lemma extends_valid st st' r : extends st st' → valid_ref r st → valid_ref r st'.
Proof. unfold valid_ref. intros H%extends_length. lia. Qed.

Lemma extends_push n st : extends st (push n st).
Proof. split; simpl; [by apply prefix_app_r | done]. Qed.

Lemma extends_say v st : extends st (say v st).
Proof. split; simpl; [done | by apply prefix_app_r]. Qed.

(** *** [grows] *)

Lemma grows_ret {A} (a : A) : grows (ret a).
Proof. by intros st b st' [= _ <-]. Qed.

Lemma grows_bind {A B} (c : M A) (f : A → M B) :
  grows c → (∀ a, grows (f a)) → grows (bind c f).
Proof.
  intros Hc Hf st b st' (a & st1 & H1 & H2)%bind_Ok.
  etrans; [by eapply Hc | by eapply Hf].
Qed.

Lemma grows_fail {A} msg : grows (@fail A msg).
Proof. by intros st a st'. Qed.

Lemma grows_undefined {A} : grows (@undefined A).
Proof. by intros st a st'. Qed.

Lemma grows_deref r : grows (deref r).
Proof. intros st a st'. unfold deref. by case_match; intros [= _ <-]. Qed.

Lemma grows_alloc n : grows (alloc n).
Proof. intros st a st' [= _ <-]. apply extends_push. Qed.

Lemma grows_print v : grows (print v).
Proof. intros st a st' [= _ <-]. apply extends_say. Qed.

Lemma grows_memo_find r : grows (memo_find r).
Proof. by intros st a st' [= _ <-]. Qed.

Lemma grows_memo_set r v : grows (memo_set r v).
Proof. by intros st a st' [= _ <-]. Qed.

Lemma grows_lift {A} (r : result A) : grows (lift r).
Proof. intros st a st'. unfold lift. by destruct r; intros [= _ <-]. Qed.

Lemma grows_CHECK_EQ a b msg : grows (CHECK_EQ a b msg).
Proof. unfold CHECK_EQ. case_decide; [apply grows_ret | apply grows_fail]. Qed.

Lemma grows_index args j : grows (index args j).
Proof. unfold index. case_match; [apply grows_ret | apply grows_fail]. Qed.

Lemma grows_mapM {A B} (f : A → M B) l : (∀ x, grows (f x)) → grows (mapM f l).
Proof.
  intros Hf. induction l as [|x xs IH]; simpl; [apply grows_ret|].
  apply grows_bind; [done|]. intros y.
  apply grows_bind; [done|]. intros ys. apply grows_ret.
Qed.

Create HintDb grows.
#[global] Hint Resolve grows_ret grows_fail grows_undefined grows_deref grows_alloc
  grows_print grows_memo_find grows_memo_set grows_lift grows_CHECK_EQ grows_index
  grows_mapM : grows.

Ltac grows_tac :=
  repeat first
    [ progress eauto with grows
    | apply grows_bind; [|intros ?]
    | case_match
    | case_decide ].

Lemma grows_Rewrite_ pre post : grows (Rewrite_ pre post).
Proof. unfold Rewrite_. grows_tac. Qed.

Lemma grows_base_DispatchVisitExpr visit e :
  (∀ c, grows (visit c)) → grows (MixedModeMutator_DispatchVisitExpr visit e).
Proof.
  intros Hv. unfold MixedModeMutator_DispatchVisitExpr.
  pose proof grows_Rewrite_. grows_tac.
Qed.

Lemma grows_DispatchVisitExpr visit e :
  (∀ c, grows (visit c)) → grows (DispatchVisitExpr visit e).
Proof.
  intros Hv. unfold DispatchVisitExpr.
  pose proof (grows_base_DispatchVisitExpr visit e Hv). grows_tac.
Qed.

Lemma grows_VisitExpr fuel e : grows (VisitExpr fuel e).
Proof.
  revert e. induction fuel as [|fuel IH]; intros e; simpl; [by intros st a st'|].
  pose proof (grows_DispatchVisitExpr (VisitExpr fuel) e IH). grows_tac.
Qed.

Lemma Mutate_extends e st r st' : Mutate e st = Ok (r, st') → extends st st'.
Proof.
  unfold Mutate, rbind. destruct (VisitExpr _ _ _) as [[r' st1]| | |] eqn:H; try done.
  intros [= _ <-]. apply grows_VisitExpr in H. done.
Qed.

(** *** [sound] *)

Lemma sound_ret {A} (a : A) st (V : A → State → Prop) :
  inv st → V a st → sound (ret a) st V.
Proof. by split. Qed.

Lemma sound_bind {A B} (c : M A) (f : A → M B) st V W :
  sound c st V →
  (∀ a st1, c st = Ok (a, st1) → inv st1 → V a st1 → sound (f a) st1 W) →
  sound (bind c f) st W.
Proof.
  unfold sound, bind, rbind. intros Hc Hf.
  destruct (c st) as [[a st1]| | |]; try done.
  destruct Hc as [Hi Hv]. by apply (Hf a st1).
Qed.

Lemma inv_push n st :
  inv st → Forall (λ c, valid_ref c st) (children n) → inv (push n st).
Proof.
  intros [Hwf Hm] Hn. split.
  - intros r x. simpl. intros Hr.
    apply lookup_app_Some in Hr as [Hr | [Hlen Hr]]; [by eapply Hwf|].
    apply list_lookup_singleton_Some in Hr as [Hr <-].
    eapply Forall_impl; [exact Hn|]. unfold valid_ref. simpl. lia.
  - intros key v Hkv. eapply extends_valid; [apply extends_push|]. by eapply Hm.
Qed.

Lemma inv_say v st : inv st → inv (say v st).
Proof. intros [Hwf Hm]. by split. Qed.

Lemma inv_memo_set key v st :
  inv st → valid_ref v st →
  inv {| heap := heap st; memo_ := <[key := v]> (memo_ st); stdout := stdout st |}.
Proof.
  intros [Hwf Hm] Hv. split; [done|].
  intros key' v'. simpl. rewrite lookup_insert. case_decide.
  - by intros [= <-].
  - apply Hm.
Qed.

Lemma inv_with_memo_empty st : wf_heap (heap st) → inv (with_memo ∅ st).
Proof. intros Hwf. split; [done|]. intros key v. simpl. by rewrite lookup_empty. Qed.

Lemma wf_children_valid st r n :
  inv st → heap st !! r = Some n →
  valid_ref r st ∧ Forall (λ c, c < r) (children n) ∧ Forall (λ c, valid_ref c st) (children n).
Proof.
  intros [Hwf _] Hr. pose proof (lookup_lt_Some _ _ _ Hr) as Hlt.
  pose proof (Hwf _ _ Hr) as Hc. split_and!; [done|done|].
  eapply Forall_impl; [exact Hc|]. unfold valid_ref. simpl. lia.
Qed.

Lemma sound_alloc n st :
  inv st → Forall (λ c, valid_ref c st) (children n) → sound (alloc n) st valid_ref.
Proof.
  intros Hi Hn. unfold sound, alloc. split; [by apply inv_push|].
  unfold valid_ref. simpl. rewrite length_app. simpl. lia.
Qed.

Lemma sound_deref r st :
  inv st → sound (deref r) st (λ n s, s = st ∧ heap st !! r = Some n).
Proof. intros Hi. unfold sound, deref. by destruct (heap st !! r). Qed.

Lemma sound_CHECK_EQ a b msg st :
  inv st → sound (CHECK_EQ a b msg) st (λ _ s, s = st).
Proof. intros Hi. unfold CHECK_EQ. by case_decide. Qed.

Lemma sound_lift {A} (r : result A) st :
  r ≠ OutOfFuel → inv st → sound (lift r) st (λ _ s, s = st).
Proof. intros Hr Hi. unfold sound, lift. by destruct r. Qed.

Lemma sound_index args j st :
  inv st → sound (index args j) st (λ a s, s = st ∧ args !! j = Some a).
Proof. intros Hi. unfold sound, index. by destruct (args !! j). Qed.

Lemma sound_print v st : inv st → sound (print v) st (λ _ s, s = say v st).
Proof. intros Hi. split; [by apply inv_say | done]. Qed.

Lemma ToScalar_terminates a j : ToScalar a j ≠ OutOfFuel.
Proof. unfold ToScalar. by case_match. Qed.

Lemma rmapM_terminates {A B} (f : A → result B) l :
  (∀ x, f x ≠ OutOfFuel) → rmapM f l ≠ OutOfFuel.
Proof.
  intros Hf. induction l as [|x xs IH]; simpl; [done|].
  specialize (Hf x). destruct (f x); simpl; try done.
  by destruct (rmapM f xs).
Qed.

Lemma ToVector_terminates a : ToVector a ≠ OutOfFuel.
Proof.
  unfold ToVector. repeat case_match; try done.
  apply rmapM_terminates, ToScalar_terminates.
Qed.

Lemma sound_Rewrite_ pre post st : inv st → sound (Rewrite_ pre post) st valid_ref.
Proof.
  intros Hi. unfold Rewrite_.
  eapply sound_bind; [by apply sound_deref|].
  intros node ? _ _ [-> Hpost].
  destruct (wf_children_valid _ _ _ Hi Hpost) as (Hv & _ & Hc).
  destruct node as [ | |op args attrs tys| ]; try done. simpl in Hc.
  assert (Hfresh : ∀ a0 op' at' s, inv s → heap s = heap st → args !! 0 = Some a0 →
            sound (alloc (Call op' [a0] at' [])) s valid_ref).
  { intros a0 op' at' s His Hs Ha0. apply sound_alloc; [done|]. simpl.
    apply Forall_singleton. unfold valid_ref. rewrite Hs.
    eapply Forall_lookup_1 in Hc; eauto. }
  repeat case_decide.
  - eapply sound_bind; [by apply sound_index|]. intros a1 ? _ _ [-> Ha1].
    eapply sound_bind; [by apply sound_deref|].
    intros n1 ? _ _ [-> _]. destruct (as_ConstantNode n1); [|by apply sound_ret].
    eapply sound_bind; [by apply sound_CHECK_EQ|]. intros _ ? _ _ ->.
    eapply sound_bind; [by apply sound_lift, Hi; apply ToVector_terminates|].
    intros v ? _ _ ->.
    eapply sound_bind; [by apply sound_index|]. intros a0 ? _ _ [-> Ha0].
    by eapply Hfresh.
  - eapply sound_bind; [by apply sound_index|]. intros a1 ? _ _ [-> Ha1].
    eapply sound_bind; [by apply sound_deref|].
    intros n1 ? _ _ [-> _]. destruct (as_ConstantNode n1); [|by apply sound_ret].
    eapply sound_bind; [by apply sound_CHECK_EQ|]. intros _ ? _ _ ->.
    eapply sound_bind; [by apply sound_lift, Hi; apply ToVector_terminates|].
    intros v ? _ _ ->.
    eapply sound_bind; [by apply sound_index|]. intros a0 ? _ _ [-> Ha0].
    by eapply Hfresh.
  - eapply sound_bind; [by apply sound_index|]. intros a1 ? _ _ [-> Ha1].
    eapply sound_bind; [by apply sound_deref|].
    intros n1 ? _ _ [-> _]. destruct (as_ConstantNode n1); [|by apply sound_ret].
    destruct (as_TopKAttrs attrs); [|done].
    eapply sound_bind; [by apply sound_lift, Hi; apply ToScalar_terminates|].
    intros kv ? _ _ ->.
    eapply sound_bind; [by apply sound_print|]. intros _ ? _ _ ->.
    eapply sound_bind; [by apply sound_index, inv_say|]. intros a0 ? _ _ [-> Ha0].
    eapply Hfresh; [by apply inv_say|done..].
  - by apply sound_ret.
Qed.

Lemma sound_mapM (visit : ref → M ref) l st :
  (∀ c, grows (visit c)) →
  (∀ c st1, c ∈ l → inv st1 → sound (visit c) st1 valid_ref) →
  inv st →
  sound (mapM visit l) st (λ rs s, Forall (λ r, valid_ref r s) rs).
Proof.
  intros Hg. revert st. induction l as [|x xs IH]; intros st Hv Hi; simpl.
  { by apply sound_ret. }
  eapply sound_bind; [apply Hv; [left | done]|].
  intros y st1 _ Hi1 Hy.
  eapply sound_bind; [apply IH; [|done]|].
  { intros c s Hc. apply Hv. by right. }
  intros ys st2 Hxs Hi2 Hys. apply sound_ret; [done|].
  constructor; [|done]. eapply extends_valid; [|done].
  eapply grows_mapM; eauto.
Qed.

Lemma sound_base_DispatchVisitExpr visit e st :
  (∀ c, grows (visit c)) →
  (∀ c st1, c < e → inv st1 → sound (visit c) st1 valid_ref) →
  inv st →
  sound (MixedModeMutator_DispatchVisitExpr visit e) st valid_ref.
Proof.
  intros Hg Hv Hi. unfold MixedModeMutator_DispatchVisitExpr.
  eapply sound_bind; [by apply sound_deref|].
  intros node ? _ _ [-> He].
  destruct (wf_children_valid _ _ _ Hi He) as (Hve & Hlt & _).
  destruct node as [ | |op args attrs tys|ps b rt tps fa]; simpl in Hlt.
  - by apply sound_ret.
  - by apply sound_ret.
  - eapply sound_bind.
    { apply sound_mapM; [done| |done]. intros c s Hc. apply Hv.
      by eapply Forall_forall in Hlt. }
    intros new_args st1 Hargs Hi1 Hnew.
    eapply sound_bind with (V := valid_ref).
    { case_decide; [|by apply sound_alloc]. apply sound_ret; [done|].
      eapply extends_valid; [|done]. eapply grows_mapM; eauto. }
    intros post st2 _ Hi2 _. by apply sound_Rewrite_.
  - apply Forall_app in Hlt as [Hps Hb]. rewrite Forall_singleton in Hb.
    eapply sound_bind.
    { apply sound_mapM; [done| |done]. intros c s Hc. apply Hv.
      by eapply Forall_forall in Hps. }
    intros new_ps st1 Hparams Hi1 Hnew.
    eapply sound_bind; [by apply Hv|].
    intros new_b st2 Hbody Hi2 Hnb.
    case_decide.
    + apply sound_ret; [done|].
      eapply extends_valid; [|done]. etrans; [eapply grows_mapM|]; eauto.
      by eapply Hg.
    + apply sound_alloc; [done|]. simpl. apply Forall_app. split.
      * eapply Forall_impl; [exact Hnew|]. intros r Hr. simpl in Hr.
        eapply extends_valid; [|done]. by eapply Hg.
      * by apply Forall_singleton.
Qed.

Lemma sound_DispatchVisitExpr visit e st :
  (∀ c, grows (visit c)) →
  (∀ c st1, c < e → inv st1 → sound (visit c) st1 valid_ref) →
  inv st →
  sound (DispatchVisitExpr visit e) st valid_ref.
Proof.
  intros Hg Hv Hi. unfold DispatchVisitExpr.
  eapply sound_bind; [by apply sound_base_DispatchVisitExpr|].
  intros post st1 _ Hi1 Hpost.
  eapply sound_bind; [by apply sound_deref|].
  intros node ? _ _ [-> Hnode].
  destruct (wf_children_valid _ _ _ Hi1 Hnode) as (_ & _ & Hc).
  destruct node; try by apply sound_ret.
  by apply sound_alloc.
Qed.

Lemma sound_VisitExpr fuel e st :
  e < fuel → inv st → sound (VisitExpr fuel e) st valid_ref.
Proof.
  revert e st. induction fuel as [|fuel IH]; intros e st Hlt Hi; [lia|]. simpl.
  eapply sound_bind with (V := λ o s, s = st ∧ o = memo_ st !! e); [done|].
  intros o ? _ _ [-> ->].
  destruct (memo_ st !! e) as [r|] eqn:Hm.
  { apply sound_ret; [done|]. destruct Hi as [_ Hmemo]. by eapply Hmemo. }
  eapply sound_bind.
  { apply sound_DispatchVisitExpr; [apply grows_VisitExpr| |done].
    intros c st1 Hc Hi1. apply IH; [lia | done]. }
  intros r st1 _ Hi1 Hr.
  eapply sound_bind with (V := λ _ s, valid_ref r s).
  { split; [by apply inv_memo_set | done]. }
  intros _ st2 _ Hi2 Hr2. by apply sound_ret.
Qed.

(** The traversal of a well-formed store terminates, and what it returns is
    again a well-formed store with a valid result. *)
Lemma Mutate_sound e st :
  wf_heap (heap st) →
  match Mutate e st with
  | Ok (r, st') => wf_heap (heap st') ∧ valid_ref r st' ∧ extends st st' ∧ memo_ st' = ∅
  | OutOfFuel => False
  | _ => True
  end.
Proof.
  intros Hwf. pose proof (sound_VisitExpr (S e) e (with_memo ∅ st)) as Hs.
  unfold sound in Hs. unfold Mutate.
  destruct (VisitExpr _ _ _) as [[r st1]| | |] eqn:Hv; simpl; try done.
  - destruct Hs as [[Hwf1 _] Hr]; [lia | by apply inv_with_memo_empty|].
    split_and!; try done. by apply grows_VisitExpr in Hv.
  - apply Hs; [lia | by apply inv_with_memo_empty].
Qed.

(** ** The driver *)

(** *** The reverse map *)

Lemma reverse_map_spec md f :
  (∀ gv, reverse_map md !! f = Some gv → functions md !! gv = Some f) ∧
  (reverse_map md !! f = None ↔ ∀ gv, functions md !! gv ≠ Some f).
Proof.
  unfold reverse_map.
  apply (map_fold_weak_ind (λ vars (fs : gmap string ref),
    (∀ gv, vars !! f = Some gv → fs !! gv = Some f) ∧
    (vars !! f = None ↔ ∀ gv, fs !! gv ≠ Some f))).
  { split; [by intros gv; rewrite lookup_empty|].
    split; [intros _ gv; by rewrite lookup_empty | by rewrite lookup_empty]. }
  intros gv func fs vars Hfresh [IH1 IH2]. split.
  - intros gv'. rewrite lookup_insert. case_decide as Hf.
    + intros [= <-]. subst func. by rewrite lookup_insert_eq.
    + intros Hv. specialize (IH1 _ Hv).
      rewrite lookup_insert_ne; [done|]. intros <-. congruence.
  - rewrite lookup_insert. case_decide as Hf.
    + subst func. split; [done|]. intros H. specialize (H gv).
      by rewrite lookup_insert_eq in H.
    + rewrite IH2. split.
      * intros H gv'. rewrite lookup_insert. case_decide; [congruence | apply H].
      * intros H gv' Hgv'. apply (H gv'). rewrite lookup_insert_ne; [done|].
        intros <-. congruence.
Qed.

Section DriverFacts.
Variables infer_type fold_const : IRModule → M IRModule.

Lemma round_Ok gv l st l' st' :
  round infer_type fold_const gv l st = Ok (l', st') →
  ∃ m1 st1 m2 st2 func,
    infer_type (m l) st = Ok (m1, st1) ∧
    fold_const m1 st1 = Ok (m2, st2) ∧
    functions m2 !! gv = Some func ∧
    Mutate func st2 = Ok (expr l', st') ∧
    (∃ n, heap st' !! expr l' = Some n ∧ is_FunctionNode n = true) ∧
    pre l' = expr l ∧ i l' = (i l + 1)%Z ∧ m l' = Update m2 gv (expr l').
Proof.
  unfold round.
  intros (m1 & st1 & H1 & (m2 & st2 & H2 & (func & st3 & H3 &
    (e & st4 & H4 & (b & st5 & H5 & H6)%bind_Ok)%bind_Ok)%bind_Ok)%bind_Ok)%bind_Ok.
  unfold Map_at in H3. destruct (functions m2 !! gv) as [fn|] eqn:Hfn; [|done].
  injection H3 as <- <-.
  unfold Downcast_BaseFunc in H5.
  apply bind_Ok in H5 as (n & st6 & Hd & Hn).
  unfold deref in Hd. destruct (heap st4 !! e) as [n'|] eqn:He; [|done].
  injection Hd as <- <-.
  destruct (is_FunctionNode n') eqn:Hfn'; [|done].
  injection Hn as <- <-. injection H6 as <- <-. simpl.
  exists m1, st1, m2, st2, fn. split_and!; eauto.
Qed.

Lemma after_rounds_S n gv l st l1 st1 :
  round infer_type fold_const gv l st = Ok (l1, st1) →
  after_rounds infer_type fold_const (S n) gv l st = after_rounds infer_type fold_const n gv l1 st1.
Proof. intros Hr. simpl. by rewrite (bind_step _ _ _ _ _ Hr). Qed.

Lemma after_rounds_abort n gv l st :
  is_Ok (round infer_type fold_const gv l st) = false →
  after_rounds infer_type fold_const (S n) gv l st = rbind (round infer_type fold_const gv l st) (λ _, Undefined).
Proof. simpl. unfold bind. by destruct (round infer_type fold_const gv l st). Qed.

(** The loop stops after between one and [loop_limit - i] rounds, exactly
    at the first round after which the loop condition is false. *)
Lemma do_while_rounds fuel gv l st :
  (0 ≤ i l < loop_limit)%Z →
  Z.to_nat (loop_limit - i l) ≤ fuel →
  ∃ n, 1 ≤ n ≤ Z.to_nat (loop_limit - i l) ∧
    do_while infer_type fold_const fuel gv l st = after_rounds infer_type fold_const n gv l st ∧
    (∀ j, 1 ≤ j < n →
       ∃ lj sj, after_rounds infer_type fold_const j gv l st = Ok (lj, sj) ∧ continue lj = true) ∧
    (∀ l' st', after_rounds infer_type fold_const n gv l st = Ok (l', st') →
       i l' = (i l + Z.of_nat n)%Z ∧ continue l' = false).
Proof.
  unfold loop_limit. revert l st.
  induction fuel as [|fuel IH]; intros l st Hi Hfuel; [lia|].
  destruct (round infer_type fold_const gv l st) as [[l1 st1]| | |] eqn:Hr.
  2-4: exists 1; split; [lia|]; rewrite after_rounds_abort by (by rewrite Hr);
       simpl; unfold bind; rewrite Hr; simpl;
       split_and!; [done | intros; exfalso; lia | done].
  pose proof (round_Ok _ _ _ _ _ Hr) as (_ & _ & _ & _ & _ & _ & _ & _ & _ & _ & _ & Hi1 & _).
  simpl. rewrite (bind_step _ _ _ _ _ Hr).
  destruct (continue l1) eqn:Hc.
  - assert (i l1 < 1000)%Z as Hlt.
    { unfold continue, loop_limit in Hc. apply andb_true_iff in Hc as [_ Hc].
      by apply bool_decide_eq_true in Hc. }
    destruct (IH l1 st1) as (n & Hn & Hrun & Hbefore & Hlast); [lia | lia |].
    exists (S n). split; [lia|]. rewrite (after_rounds_S _ _ _ _ _ _ Hr).
    split_and!; [done | |].
    + intros j Hj. destruct j as [|j]; [lia|]. rewrite (after_rounds_S _ _ _ _ _ _ Hr).
      destruct j as [|j]; [by exists l1, st1|]. apply Hbefore. lia.
    + intros l' st' Hl'. destruct (Hlast _ _ Hl') as [-> ?]. split; [lia | done].
  - exists 1. split; [lia|]. rewrite (after_rounds_S _ _ _ _ _ _ Hr). simpl.
    split_and!; [done | intros; exfalso; lia |].
    intros l' st' [= <- <-]. split; [lia | done].
Qed.

Hypothesis infer_type_ok : pass_ok infer_type.
Hypothesis fold_const_ok : pass_ok fold_const.

Lemma round_terminates gv l st :
  wf_heap (heap st) →
  match round infer_type fold_const gv l st with
  | Ok (_, st') => wf_heap (heap st')
  | OutOfFuel => False
  | _ => True
  end.
Proof.
  intros Hwf. unfold round, bind at 1.
  pose proof (infer_type_ok (m l) st Hwf) as H1.
  destruct (infer_type (m l) st) as [[m1 st1]| | |]; simpl; try done.
  unfold bind at 1. pose proof (fold_const_ok m1 st1 H1) as H2.
  destruct (fold_const m1 st1) as [[m2 st2]| | |]; simpl; try done.
  unfold bind at 1, Map_at. destruct (functions m2 !! gv) as [func|]; simpl; [|done].
  unfold bind at 1. pose proof (Mutate_sound func st2 H2) as H3.
  destruct (Mutate func st2) as [[e st3]| | |]; simpl; try done.
  destruct H3 as (Hwf3 & _).
  unfold bind at 1, Downcast_BaseFunc, bind, deref.
  destruct (heap st3 !! e) as [n|]; simpl; [|done].
  by destruct (is_FunctionNode n).
Qed.

Lemma after_rounds_terminates n gv l st :
  wf_heap (heap st) → after_rounds infer_type fold_const n gv l st ≠ OutOfFuel.
Proof.
  revert l st. induction n as [|n IH]; intros l st Hwf; simpl; [done|].
  unfold bind. pose proof (round_terminates gv l st Hwf) as Hr.
  destruct (round infer_type fold_const gv l st) as [[l1 st1]| | |]; simpl; try done.
  by apply IH.
Qed.
End DriverFacts.

(** ** What [DispatchVisitExpr] does to a node *)

Lemma deref_Ok r st n : heap st !! r = Some n → deref r st = Ok (n, st).
Proof. unfold deref. by intros ->. Qed.

Lemma lookup_push n st : heap (push n st) !! length (heap st) = Some n.
Proof. simpl. by rewrite lookup_app_r, Nat.sub_diag. Qed.

Lemma base_DispatchVisitExpr_Function visit f st ps b rt tps fa new_ps st1 new_b st2 :
  (∀ c, grows (visit c)) →
  heap st !! f = Some (Function ps b rt tps fa) →
  mapM visit ps st = Ok (new_ps, st1) →
  visit b st1 = Ok (new_b, st2) →
  ∃ post s, MixedModeMutator_DispatchVisitExpr visit f st = Ok (post, s) ∧
    heap s !! post = Some (Function new_ps new_b rt tps fa) ∧ extends st2 s.
Proof.
  intros Hg Hf Hps Hb.
  assert (extends st st2) as Hext.
  { etrans; [by eapply grows_mapM | by eapply Hg]. }
  unfold MixedModeMutator_DispatchVisitExpr.
  rewrite (bind_step _ _ _ _ _ (deref_Ok _ _ _ Hf)).
  rewrite (bind_step _ _ _ _ _ Hps), (bind_step _ _ _ _ _ Hb).
  case_decide as Hsame.
  - destruct Hsame as [-> ->]. exists f, st2. split_and!; [done | | done].
    by eapply extends_lookup.
  - eexists _, _. split; [reflexivity|]. split; [apply lookup_push | apply extends_push].
Qed.

Lemma DispatchVisitExpr_Function visit f st ps b rt tps fa new_ps st1 new_b st2 :
  (∀ c, grows (visit c)) →
  heap st !! f = Some (Function ps b rt tps fa) →
  mapM visit ps st = Ok (new_ps, st1) →
  visit b st1 = Ok (new_b, st2) →
  ∃ r st3, DispatchVisitExpr visit f st = Ok (r, st3) ∧
    heap st3 !! r = Some (Function new_ps new_b None tps fa) ∧
    length (heap st2) ≤ r ∧ extends st2 st3.
Proof.
  intros Hg Hf Hps Hb.
  destruct (base_DispatchVisitExpr_Function _ _ _ _ _ _ _ _ _ _ _ _ Hg Hf Hps Hb)
    as (post & s & Hbase & Hpost & Hext).
  unfold DispatchVisitExpr.
  rewrite (bind_step _ _ _ _ _ Hbase), (bind_step _ _ _ _ _ (deref_Ok _ _ _ Hpost)).
  eexists _, _. split; [reflexivity|].
  split_and!; [apply lookup_push | by apply extends_length |].
  etrans; [done | apply extends_push].
Qed.

Lemma DispatchVisitExpr_fresh_Function visit e st r st' n :
  (∀ c, grows (visit c)) →
  DispatchVisitExpr visit e st = Ok (r, st') →
  heap st' !! r = Some n → is_FunctionNode n = true →
  length (heap st) ≤ r.
Proof.
  intros Hg. unfold DispatchVisitExpr.
  intros (post & s1 & Hbase & (node & s2 & Hd & Hres)%bind_Ok)%bind_Ok Hr Hn.
  apply grows_base_DispatchVisitExpr in Hbase; [|done].
  unfold deref in Hd. destruct (heap s1 !! post) as [x|] eqn:Hpost; [|done].
  injection Hd as <- <-.
  destruct x; injection Hres as <- <-; simpl in *;
    try (rewrite Hpost in Hr; by injection Hr as <-).
  by apply extends_length.
Qed.

Lemma Mutate_fresh_Function e st r st' n :
  Mutate e st = Ok (r, st') →
  heap st' !! r = Some n → is_FunctionNode n = true →
  length (heap st) ≤ r.
Proof.
  unfold Mutate, rbind.
  destruct (VisitExpr _ _ _) as [[r' s1]| | |] eqn:Hv; try done.
  intros [= <- <-]. simpl in *.
  apply bind_Ok in Hv as (o & s2 & Hfind & Hv).
  injection Hfind as <- <-. simpl in Hv. rewrite lookup_empty in Hv.
  apply bind_Ok in Hv as (r & s3 & Hd & (u & s4 & Hset & Hret)%bind_Ok).
  injection Hset as <- <-. injection Hret as <- <-. simpl.
  intros Hr Hn.
  by apply (DispatchVisitExpr_fresh_Function _ _ _ _ _ _ (grows_VisitExpr _) Hd Hr Hn).
Qed.

(** ** The loop condition never sees two equal references *)

Section NeverEqual.
Variables infer_type fold_const : IRModule → M IRModule.
Hypothesis infer_type_grows : ∀ md, grows (infer_type md).
Hypothesis fold_const_grows : ∀ md, grows (fold_const md).

Lemma round_fresh gv l st l' st' :
  valid_ref (expr l) st →
  round infer_type fold_const gv l st = Ok (l', st') →
  pre l' ≠ expr l' ∧ valid_ref (expr l') st' ∧ i l' = (i l + 1)%Z.
Proof.
  intros Hv (m1 & st1 & m2 & st2 & func & H1 & H2 & _ & Hm & (n & Hn & Hfn) & Hpre & Hi & _)%round_Ok.
  apply infer_type_grows, extends_length in H1.
  apply fold_const_grows, extends_length in H2.
  pose proof (Mutate_fresh_Function _ _ _ _ _ Hm Hn Hfn) as Hfresh.
  unfold valid_ref in *. split_and!; [lia | by eapply lookup_lt_Some | done].
Qed.

Lemma do_while_hits_cap fuel gv l st l' st' :
  valid_ref (expr l) st → (i l < loop_limit)%Z →
  do_while infer_type fold_const fuel gv l st = Ok (l', st') →
  i l' = loop_limit ∧ pre l' ≠ expr l'.
Proof.
  unfold loop_limit. revert l st.
  induction fuel as [|fuel IH]; intros l st Hv Hi; [done|]. simpl.
  intros (l1 & st1 & Hr & Hrest)%bind_Ok.
  destruct (round_fresh _ _ _ _ _ Hv Hr) as (Hne & Hv1 & Hi1).
  unfold continue, loop_limit in Hrest.
  rewrite bool_decide_eq_true_2 in Hrest by done. simpl in Hrest.
  case_bool_decide.
  - by eapply IH.
  - injection Hrest as <- <-. split; [lia | done].
Qed.

(** Whatever the function, a run that returns has gone through all the
    rounds the cap allows. *)
Lemma DynamicToStatic_hits_cap f md st l st' :
  valid_ref f st →
  DynamicToStatic_run infer_type fold_const f md st = Ok (l, st') →
  i l = loop_limit ∧ pre l ≠ expr l.
Proof.
  intros Hv. unfold DynamicToStatic_run.
  intros (gv & s1 & Hgv & Hrun)%bind_Ok.
  unfold Map_at in Hgv. destruct (reverse_map md !! f); [|done].
  injection Hgv as <- <-.
  eapply do_while_hits_cap; [| |exact Hrun]; [done | done].
Qed.
End NeverEqual.

Lemma no_op_pass_grows md : grows (no_op_pass md).
Proof. apply grows_ret. Qed.

Lemma no_op_pass_ok : pass_ok no_op_pass.
Proof. by intros md st Hwf. Qed.

Lemma check_from_wf r h :
  check_from r h = true →
  ∀ j n, h !! j = Some n → Forall (λ c, c < r + j) (children n).
Proof.
  revert r. induction h as [|x h IH]; intros r Hc j n Hj; [done|].
  simpl in Hc. apply andb_true_iff in Hc as [Hx Hh].
  destruct j as [|j]; simpl in Hj.
  - injection Hj as <-. apply Forall_forall. intros c Hin.
    rewrite forallb_forall in Hx. apply list_elem_of_In, Hx, Nat.ltb_lt in Hin. lia.
  - replace (r + S j) with (S r + j) by lia. by eapply IH.
Qed.

Lemma check_heap_wf h : check_heap h = true → wf_heap h.
Proof. intros Hc r n Hr. by apply (check_from_wf 0 h Hc r n). Qed.

(** * The claims *)

(** C1: a call to [dyn.reshape] whose argument 1 is a constant of rank 1 is
    rewritten into a freshly allocated call to the static [reshape], whose
    [newshape] is the contents of the constant, whose [reverse] is false and
    whose only argument is the data argument; and the function around it,
    once its parameters and body are rewritten, comes back as a function
    without declared return type. *)
Theorem C1_dyn_reshape_becomes_static
    pre post st args attrs tys a0 a1 shp
    fuel f stf ps b rt tps fa new_ps st1 new_b st2 :
  heap st !! post = Some (Call dyn_reshape_op_ args attrs tys) →
  args !! 0 = Some a0 → args !! 1 = Some a1 →
  heap st !! a1 = Some (Constant shp) →
  ndim shp = 1%Z → tensor_ok shp →
  heap stf !! f = Some (Function ps b rt tps fa) →
  mapM (VisitExpr fuel) ps stf = Ok (new_ps, st1) →
  VisitExpr fuel b st1 = Ok (new_b, st2) →
  Rewrite_ pre post st =
    Ok (length (heap st),
        push (Call (OpRegistry.Get "reshape") [a0]
                (AttrsReshape {| newshape := data shp; reverse := false |}) []) st)
  ∧ ∃ r st3,
      DispatchVisitExpr (VisitExpr fuel) f stf = Ok (r, st3) ∧
      heap st3 !! r = Some (Function new_ps new_b None tps fa).
Proof.
  intros Hpost H0 H1 Ha1 Hn Hok Hf Hps Hb. split.
  - by apply (Rewrite_reshape_fires pre post st args attrs tys a0 a1 shp).
  - destruct (DispatchVisitExpr_Function _ _ _ _ _ _ _ _ _ _ _ _
                (grows_VisitExpr fuel) Hf Hps Hb) as (r & st3 & Hd & Hr & _).
    eauto.
Qed.

Lemma C1_witness :
  Rewrite_ 2 2 (state_of reshape_program) =
    Ok (4, push (Call (OpRegistry.Get "reshape") [0]
                   (AttrsReshape {| newshape := [2%Z; 3%Z]; reverse := false |}) [])
             (state_of reshape_program))
  ∧ ∃ r st3,
      DispatchVisitExpr (VisitExpr 3) 3 (state_of reshape_program) = Ok (r, st3) ∧
      heap st3 !! r = Some (Function [0] 4 None [] NullAttrs).
Proof.
  eapply (C1_dyn_reshape_becomes_static 2 2 (state_of reshape_program) [0; 1] NullAttrs []
            0 1 shape_2_3 3 3 (state_of reshape_program) [0] 2
            (Some (TensorType [2%Z; 3%Z] "float32")) [] NullAttrs [0] _ 4 _);
    try reflexivity.
Defined.

(** The end-to-end scenario of the specification: one traversal of
    [fn (x) -> Tensor[(2, 3)] { dyn.reshape(x, [2, 3]) }]. *)
Example reshape_2_3_end_to_end :
  Mutate 3 (state_of reshape_program) =
    Ok (6, state_of (reshape_program ++
      [ Call (OpRegistry.Get "reshape") [0]
          (AttrsReshape {| newshape := [2%Z; 3%Z]; reverse := false |}) [];
        Function [0] 4 (Some (TensorType [2%Z; 3%Z] "float32")) [] NullAttrs;
        Function [0] 4 None [] NullAttrs ])).
Proof. vm_compute. reflexivity. Qed.

(** C2: [dyn.topk] with a constant [k] that is not a scalar.  The branch for
    [dyn.topk] has no rank check: on the one-element vector [[3]] the rule
    fires, writes [3] to the standard output and returns the static call
    with [k = 3]. *)
Theorem C2_topk_rank_is_not_checked :
  ndim k_vector ≠ 0%Z ∧
  Rewrite_ 2 2 (state_of (topk_program k_vector)) =
    Ok (4, {| heap := topk_program k_vector ++
                [ Call (OpRegistry.Get "topk") [0]
                    (AttrsTopK {| k := Some 3%Z; axis := (-1)%Z; ret_type := "both";
                                  is_ascend := false; topk_dtype := "int64" |}) [] ];
              memo_ := ∅;
              stdout := [3%Z] |}).
Proof. split; [done | reflexivity]. Qed.

(** C3: the driver terminates.  Once the target function is found in the
    module, the run is the composition of [n] rounds for some [n] between 1
    and 1000: it never runs out of fuel, the loop condition held after each
    of the rounds before the [n]-th, and when round [n] completes the counter
    is [n], the loop condition is false (the two references are equal or [n]
    is 1000) and [DynamicToStatic] returns the expression of that round. *)
Theorem C3_driver_terminates_within_the_cap infer_type fold_const f md st gv :
  pass_ok infer_type → pass_ok fold_const →
  wf_heap (heap st) →
  reverse_map md !! f = Some gv →
  ∃ n, 1 ≤ n ≤ 1000 ∧
    DynamicToStatic_run infer_type fold_const f md st
      = after_rounds infer_type fold_const n gv (initial f md) st ∧
    DynamicToStatic_run infer_type fold_const f md st ≠ OutOfFuel ∧
    (∀ j, 1 ≤ j < n →
       ∃ lj sj, after_rounds infer_type fold_const j gv (initial f md) st = Ok (lj, sj) ∧
                pre lj ≠ expr lj ∧ (i lj < 1000)%Z) ∧
    (∀ l st', DynamicToStatic_run infer_type fold_const f md st = Ok (l, st') →
       i l = Z.of_nat n ∧ (pre l = expr l ∨ n = 1000) ∧
       DynamicToStatic infer_type fold_const f md st = Ok (expr l, st')).
Proof.
  intros Hinfer Hfold Hwf Hgv.
  destruct (do_while_rounds infer_type fold_const (Z.to_nat loop_limit) gv (initial f md) st)
    as (n & Hn & Hrun & Hbefore & Hlast); [done | done |].
  assert (DynamicToStatic_run infer_type fold_const f md st
          = after_rounds infer_type fold_const n gv (initial f md) st) as Heq.
  { unfold DynamicToStatic_run, bind, Map_at. by rewrite Hgv. }
  exists n. simpl in Hn. split; [unfold loop_limit in Hn; simpl in Hn; lia|].
  split; [done|]. split; [rewrite Heq; by apply after_rounds_terminates|]. split.
  - intros j Hj. destruct (Hbefore j Hj) as (lj & sj & Hj1 & Hc).
    exists lj, sj. split; [done|]. unfold continue, loop_limit in Hc.
    apply andb_true_iff in Hc as [H1 H2].
    by apply bool_decide_eq_true in H1, H2.
  - intros l st' Hl. rewrite Heq in Hl. destruct (Hlast _ _ Hl) as [Hi Hc].
    simpl in Hi. split; [done|]. split.
    + unfold continue, loop_limit in Hc. apply andb_false_iff in Hc as [Hc | Hc].
      * apply bool_decide_eq_false in Hc. left. by destruct (decide (pre l = expr l)).
      * apply bool_decide_eq_false in Hc. right. unfold loop_limit in Hn. simpl in Hn. lia.
    + unfold DynamicToStatic, bind. by rewrite Heq, Hl.
Qed.

Lemma C3_witness :
  ∃ n, 1 ≤ n ≤ 1000 ∧
    DynamicToStatic_run no_op_pass no_op_pass 3 (main_module 3) (state_of reshape_program)
      = after_rounds no_op_pass no_op_pass n "main" (initial 3 (main_module 3))
          (state_of reshape_program) ∧
    DynamicToStatic_run no_op_pass no_op_pass 3 (main_module 3) (state_of reshape_program)
      ≠ OutOfFuel ∧
    (∀ j, 1 ≤ j < n →
       ∃ lj sj, after_rounds no_op_pass no_op_pass j "main" (initial 3 (main_module 3))
                  (state_of reshape_program) = Ok (lj, sj) ∧
                pre lj ≠ expr lj ∧ (i lj < 1000)%Z) ∧
    (∀ l st', DynamicToStatic_run no_op_pass no_op_pass 3 (main_module 3)
                (state_of reshape_program) = Ok (l, st') →
       i l = Z.of_nat n ∧ (pre l = expr l ∨ n = 1000) ∧
       DynamicToStatic no_op_pass no_op_pass 3 (main_module 3) (state_of reshape_program)
         = Ok (expr l, st')).
Proof.
  apply (C3_driver_terminates_within_the_cap no_op_pass no_op_pass 3 (main_module 3)
           (state_of reshape_program) "main").
  - apply no_op_pass_ok.
  - apply no_op_pass_ok.
  - apply check_heap_wf. reflexivity.
  - reflexivity.
Defined.

(** C4: on a call whose operator is a dynamic target but whose argument 1 is
    not a constant, and on a call whose operator is no target at all, the
    hook returns the call it was given and leaves the state as it is: no
    node is allocated and nothing is written. *)
Theorem C4_no_rule_fires_call_unchanged pre post st op args attrs tys :
  heap st !! post = Some (Call op args attrs tys) →
  (is_dynamic_target op = true ∧
     ∃ a1 n1, args !! 1 = Some a1 ∧ heap st !! a1 = Some n1 ∧ as_ConstantNode n1 = None)
  ∨ is_dynamic_target op = false →
  Rewrite_ pre post st = Ok (post, st).
Proof.
  intros Hpost [(_ & a1 & n1 & H1 & Ha1 & Hn1) | Hop].
  - by apply (Rewrite_not_constant pre post st op args attrs tys a1 n1).
  - by apply (Rewrite_not_target pre post st op args attrs tys).
Qed.

Lemma C4_witness :
  Rewrite_ 2 2 (state_of var_program) = Ok (2, state_of var_program).
Proof.
  apply (C4_no_rule_fires_call_unchanged 2 2 (state_of var_program)
           dyn_reshape_op_ [0; 1] NullAttrs []); [reflexivity|].
  left. split; [reflexivity|]. exists 1, (Other "y"). split_and!; reflexivity.
Defined.

(** C5: a function with nothing left to specialise.  The run on
    [fn (x) { reshape(x, newshape=[2, 3]) }], with collaborators that leave
    the module alone, does not stop after one round: after the first round
    the two references differ, and the loop ends with the counter at 1000
    and the references still different. *)
Theorem C5_specialised_function_runs_to_the_cap :
  rbind (after_rounds no_op_pass no_op_pass 1 "main" (initial 2 (main_module 2))
           (state_of static_program))
        (λ p, Ok (pre p.1, expr p.1, i p.1)) = Ok (2, 3, 1%Z)
  ∧ rbind (DynamicToStatic_run no_op_pass no_op_pass 2 (main_module 2)
             (state_of static_program))
          (λ p, Ok (bool_decide (pre p.1 = expr p.1), i p.1)) = Ok (false, 1000%Z).
Proof. split; vm_compute; reflexivity. Qed.

(** C6: what one traversal does besides building nodes.  On
    [fn (x) { dyn.topk(x, 3) }] the traversal writes a line to the standard
    output. *)
Theorem C6_traversal_writes_to_stdout :
  stdout (state_of (topk_program k_scalar)) = [] ∧
  rbind (Mutate 3 (state_of (topk_program k_scalar))) (λ p, Ok (stdout p.2)) = Ok [3%Z].
Proof. split; [reflexivity | vm_compute; reflexivity]. Qed.

(** C7: [dyn.reshape] and [dyn.tile] with a constant argument 1 that is not
    of rank 1 stop on a failed check. *)
Theorem C7_shape_constant_of_wrong_rank_is_fatal pre post st op args attrs tys a1 c :
  heap st !! post = Some (Call op args attrs tys) →
  op = dyn_reshape_op_ ∨ op = dyn_tile_op_ →
  args !! 1 = Some a1 →
  heap st !! a1 = Some (Constant c) →
  ndim c ≠ 1%Z →
  ∃ msg, Rewrite_ pre post st = Fatal msg.
Proof.
  intros Hpost [-> | ->] H1 Ha1 Hn; eexists.
  - by apply (Rewrite_reshape_bad_rank pre post st args attrs tys a1 c).
  - by apply (Rewrite_tile_bad_rank pre post st args attrs tys a1 c).
Qed.

Lemma C7_witness : ∃ msg, Rewrite_ 2 2 (state_of rank2_program) = Fatal msg.
Proof.
  apply (C7_shape_constant_of_wrong_rank_is_fatal 2 2 (state_of rank2_program)
           dyn_reshape_op_ [0; 1] NullAttrs [] 1 shape_rank2);
    [reflexivity | by left | reflexivity | reflexivity | done].
Defined.



(** Past the range of a C [int] the value is narrowed: a constant holding
    2^31 gives [k = -2^31]. *)
Example topk_k_is_narrowed :
  Rewrite_ 2 2 (state_of (topk_program
                            {| shape := []; dtype := "int64"; data := [2147483648%Z] |}))
  = Ok (4, push (Call (OpRegistry.Get "topk") [0]
                   (AttrsTopK {| k := Some (-2147483648)%Z; axis := (-1)%Z;
                                 ret_type := "both"; is_ascend := false;
                                 topk_dtype := "int64" |}) [])
             (say (-2147483648)
                (state_of (topk_program
                             {| shape := []; dtype := "int64"; data := [2147483648%Z] |})))).
Proof. reflexivity. Qed.

(** The same call without its attribute payload. *)
Example topk_without_attrs_is_fatal :
  Rewrite_ 2 2 (state_of [Other "x"; Constant k_scalar; Call dyn_topk_op_ [0; 1] NullAttrs []])
  = Fatal "Check failed: param".
Proof. reflexivity. Qed.

(** C9 fails on function nodes, declared return type or not.  In
    [fn () { fn (x) { x } }] the inner function is nested and has no
    declared return type; its children come back identical and there is no
    call for a rule to fire on, yet the traversal returns a fresh node for
    it and the store has grown. *)
Lemma C9_counterexample :
  let st := state_of nested_program in
  ∃ st1 r st2,
    heap st !! 2 = Some (Function [] 1 None [] NullAttrs) ∧
    heap st !! 1 = Some (Function [0] 0 None [] NullAttrs) ∧
    mapM (VisitExpr 1) (children (Function [0] 0 None [] NullAttrs)) st
      = Ok (children (Function [0] 0 None [] NullAttrs), st1) ∧
    no_rule_fires (heap st1) (Function [0] 0 None [] NullAttrs) ∧
    DispatchVisitExpr (VisitExpr 1) 1 st = Ok (r, st2) ∧
    r ≠ 1 ∧ length (heap st2) = S (length (heap st)).
Proof.
  simpl. eexists _, _, _. split; [reflexivity|]. split; [reflexivity|].
  split; [vm_compute; reflexivity|]. split; [done|].
  split; [vm_compute; reflexivity|]. split; [lia | reflexivity].
Qed.

(** C9, amended: a visited node that is not a function, whose children all
    come back identical and on which no rule fires, is returned itself, and
    nothing is allocated for it. *)
Theorem C9_unchanged_node_is_returned_itself fuel e st node st1 :
  heap st !! e = Some node →
  is_FunctionNode node = false →
  mapM (VisitExpr fuel) (children node) st = Ok (children node, st1) →
  no_rule_fires (heap st1) node →
  DispatchVisitExpr (VisitExpr fuel) e st = Ok (e, st1).
Proof.
  intros He Hnf Hch Hno.
  assert (heap st1 !! e = Some node) as He1.
  { eapply extends_lookup; [|exact He]. eapply grows_mapM; [|exact Hch].
    apply grows_VisitExpr. }
  assert (MixedModeMutator_DispatchVisitExpr (VisitExpr fuel) e st = Ok (e, st1)) as Hbase.
  { unfold MixedModeMutator_DispatchVisitExpr.
    rewrite (bind_step _ _ _ _ _ (deref_Ok _ _ _ He)).
    destruct node as [tag|v|op args attrs tys|]; [| | |done]; simpl in Hch.
    - by injection Hch as <-.
    - by injection Hch as <-.
    - rewrite (bind_step _ _ _ _ _ Hch). rewrite decide_True by done.
      rewrite (bind_step _ _ _ e st1) by done.
      destruct Hno as [Hop | (a1 & n1 & H1 & Ha1 & Hn1)].
      + by apply (Rewrite_not_target e e st1 op args attrs tys).
      + by apply (Rewrite_not_constant e e st1 op args attrs tys a1 n1). }
  unfold DispatchVisitExpr.
  rewrite (bind_step _ _ _ _ _ Hbase), (bind_step _ _ _ _ _ (deref_Ok _ _ _ He1)).
  by destruct node.
Qed.

Lemma C9_witness :
  DispatchVisitExpr (VisitExpr 2) 2 (state_of var_program)
  = Ok (2, with_memo (<[1 := 1]> (<[0 := 0]> ∅)) (state_of var_program)).
Proof.
  apply (C9_unchanged_node_is_returned_itself 2 2 (state_of var_program)
           (Call dyn_reshape_op_ [0; 1] NullAttrs [])).
  - reflexivity.
  - reflexivity.
  - vm_compute. reflexivity.
  - right. exists 1, (Other "y"). split_and!; reflexivity.
Defined.

(** C10: the entry point looks its target up among the functions of the
    module.  For a function that is not bound there the lookup fails, and
    with it the whole call, before any pass is run. *)
Theorem C10_target_must_be_bound_in_module infer_type fold_const f md st :
  (∀ gv, functions md !! gv ≠ Some f) →
  DynamicToStatic infer_type fold_const f md st
    = Fatal "Check failed: cannot find the corresponding key in the Map".
Proof.
  intros Hf. apply reverse_map_spec in Hf.
  unfold DynamicToStatic, DynamicToStatic_run, bind, Map_at. by rewrite Hf.
Qed.

Lemma C10_witness :
  DynamicToStatic no_op_pass no_op_pass 0 (main_module 3) (state_of reshape_program)
    = Fatal "Check failed: cannot find the corresponding key in the Map".
Proof.
  apply C10_target_must_be_bound_in_module.
  intros gv. unfold main_module. simpl.
  destruct (decide (gv = "main")) as [-> | Hne].
  - rewrite lookup_singleton_eq. discriminate.
  - rewrite lookup_singleton_ne by done. discriminate.
Defined.

(** ** The outcome of the hook *)

Lemma Rewrite_outcome pre post st r st' :
  Rewrite_ pre post st = Ok (r, st') →
  (r = post ∧ st' = st) ∨
  ∃ op args attrs tys a0 at' out,
    heap st !! post = Some (Call op args attrs tys) ∧
    is_dynamic_target op = true ∧
    args !! 0 = Some a0 ∧
    r = length (heap st) ∧
    st' = {| heap := heap st ++ [Call (static_counterpart op) [a0] at' []];
             memo_ := memo_ st;
             stdout := stdout st ++ out |} ∧
    (op ≠ dyn_topk_op_ → out = []) ∧
    length out ≤ 1.
Proof.
  unfold Rewrite_.
  intros (node & s0 & Hd & H)%bind_Ok.
  unfold deref in Hd. destruct (heap st !! post) as [x|] eqn:Hpost; [|done].
  injection Hd as <- <-.
  destruct x as [ | |op args attrs tys| ]; try done.
  assert (Hidx : ∀ j a s s', index args j s = Ok (a, s') → s' = s ∧ args !! j = Some a).
  { intros j a s s'. unfold index. destruct (args !! j); [|done]. by intros [= <- <-]. }
  assert (Hder : ∀ a n s s', deref a s = Ok (n, s') → s' = s).
  { intros a n s s'. unfold deref. destruct (heap s !! a); [|done]. by intros [= _ <-]. }
  assert (Hchk : ∀ a b msg (u : unit) s s', CHECK_EQ a b msg s = Ok (u, s') → s' = s).
  { intros a b msg u s s'. unfold CHECK_EQ, ret, fail. destruct (decide (a = b)); simpl; [|done]. by intros [= _ <-]. }
  assert (Hlift : ∀ A (x : result A) a s s', lift x s = Ok (a, s') → s' = s).
  { intros A x a s s'. unfold lift. destruct x; try done. by intros [= _ <-]. }
  repeat case_decide.
  - subst op. apply bind_Ok in H as (a1 & s1 & (-> & Harg1)%Hidx & H).
    apply bind_Ok in H as (n1 & s2 & ->%Hder & H).
    destruct (as_ConstantNode n1) as [shp|]; [|injection H as <- <-; by left].
    apply bind_Ok in H as (u & s3 & ->%Hchk & H).
    apply bind_Ok in H as (v & s4 & ->%Hlift & H).
    apply bind_Ok in H as (a0 & s5 & (-> & Harg0)%Hidx & H).
    injection H as <- <-. right.
    exists dyn_reshape_op_, args, attrs, tys, a0, (AttrsReshape {| newshape := v; reverse := false |}), [].
    rewrite app_nil_r. split_and!; try done; simpl; lia.
  - subst op. apply bind_Ok in H as (a1 & s1 & (-> & Harg1)%Hidx & H).
    apply bind_Ok in H as (n1 & s2 & ->%Hder & H).
    destruct (as_ConstantNode n1) as [rps|]; [|injection H as <- <-; by left].
    apply bind_Ok in H as (u & s3 & ->%Hchk & H).
    apply bind_Ok in H as (v & s4 & ->%Hlift & H).
    apply bind_Ok in H as (a0 & s5 & (-> & Harg0)%Hidx & H).
    injection H as <- <-. right.
    exists dyn_tile_op_, args, attrs, tys, a0, (AttrsTile {| reps := v |}), [].
    rewrite app_nil_r. split_and!; try done; simpl; lia.
  - subst op. apply bind_Ok in H as (a1 & s1 & (-> & Harg1)%Hidx & H).
    apply bind_Ok in H as (n1 & s2 & ->%Hder & H).
    destruct (as_ConstantNode n1) as [kc|]; [|injection H as <- <-; by left].
    destruct (as_TopKAttrs attrs) as [param|]; [|done].
    apply bind_Ok in H as (kv & s4 & ->%Hlift & H).
    apply bind_Ok in H as (u & s5 & Hp & H). injection Hp as _ <-.
    apply bind_Ok in H as (a0 & s6 & (-> & Harg0)%Hidx & H).
    injection H as <- <-. right.
    exists dyn_topk_op_, args, attrs, tys, a0,
      (AttrsTopK {| k := Some (Integer kv); axis := axis param; ret_type := ret_type param;
                    is_ascend := is_ascend param; topk_dtype := topk_dtype param |}), [Integer kv].
    split_and!; try done; simpl; lia.
  - injection H as <- <-. by left.
Qed.

Lemma static_counterpart_not_target op : is_dynamic_target (static_counterpart op) = false.
Proof. unfold static_counterpart. by repeat case_decide. Qed.

(** ** What the driver returns *)

Lemma DispatchVisitExpr_untyped visit e st r st' ps b rt tps fa :
  DispatchVisitExpr visit e st = Ok (r, st') →
  heap st' !! r = Some (Function ps b rt tps fa) →
  rt = None.
Proof.
  unfold DispatchVisitExpr.
  intros (post & s1 & _ & (node & s2 & Hd & Hres)%bind_Ok)%bind_Ok Hr.
  unfold deref in Hd. destruct (heap s1 !! post) as [x|] eqn:Hpost; [|done].
  injection Hd as <- <-.
  destruct x; injection Hres as <- <-; simpl in *;
    try (rewrite Hpost in Hr; by injection Hr).
  rewrite lookup_app_r, Nat.sub_diag in Hr by done. by injection Hr.
Qed.

Lemma Mutate_dispatch e st r st' :
  Mutate e st = Ok (r, st') →
  ∃ s1, DispatchVisitExpr (VisitExpr e) e (with_memo ∅ st) = Ok (r, s1) ∧
        heap st' = heap s1 ∧ stdout st' = stdout s1 ∧ memo_ st' = ∅.
Proof.
  unfold Mutate, rbind.
  destruct (VisitExpr _ _ _) as [[r' s1]| | |] eqn:Hv; try done.
  intros [= <- <-]. simpl in *.
  apply bind_Ok in Hv as (o & s2 & Hfind & Hv).
  injection Hfind as <- <-. simpl in Hv. rewrite lookup_empty in Hv.
  apply bind_Ok in Hv as (r & s3 & Hd & (u & s4 & Hset & Hret)%bind_Ok).
  injection Hset as _ <-. injection Hret as <- <-. by exists s3.
Qed.

Lemma Mutate_untyped e st r st' ps b rt tps fa :
  Mutate e st = Ok (r, st') →
  heap st' !! r = Some (Function ps b rt tps fa) →
  rt = None.
Proof.
  intros (s1 & Hd & Hh & _)%Mutate_dispatch Hr. rewrite Hh in Hr.
  by eapply DispatchVisitExpr_untyped.
Qed.

Section DriverResult.
Variables infer_type fold_const : IRModule → M IRModule.

Lemma do_while_last_round fuel gv l st l' st' :
  do_while infer_type fold_const fuel gv l st = Ok (l', st') →
  ∃ l0 st0, round infer_type fold_const gv l0 st0 = Ok (l', st').
Proof.
  revert l st. induction fuel as [|fuel IH]; intros l st; [done|]. simpl.
  intros (l1 & st1 & Hr & Hrest)%bind_Ok.
  destruct (continue l1); [by eapply IH|].
  injection Hrest as <- <-. eauto.
Qed.

Lemma DynamicToStatic_result f md st e st' :
  DynamicToStatic infer_type fold_const f md st = Ok (e, st') →
  ∃ ps b tps fa, heap st' !! e = Some (Function ps b None tps fa).
Proof.
  unfold DynamicToStatic, DynamicToStatic_run.
  intros (l & s1 & (gv & s2 & _ & Hrun)%bind_Ok & Hret)%bind_Ok.
  injection Hret as <- <-.
  apply do_while_last_round in Hrun as (l0 & st0 & Hr).
  apply round_Ok in Hr as (_ & _ & _ & st2 & func & _ & _ & _ & Hm & (n & Hn & Hfn) & _).
  destruct n as [ | | |ps b rt tps fa]; try done.
  rewrite (Mutate_untyped _ _ _ _ _ _ _ _ _ Hm Hn) in Hn. eauto.
Qed.
End DriverResult.

(** ** Every round allocates *)

Section Growth.
Variables infer_type fold_const : IRModule → M IRModule.
Hypothesis infer_type_grows : ∀ md, grows (infer_type md).
Hypothesis fold_const_grows : ∀ md, grows (fold_const md).

Lemma round_allocates gv l st l' st' :
  round infer_type fold_const gv l st = Ok (l', st') →
  length (heap st) < length (heap st').
Proof.
  intros (m1 & st1 & m2 & st2 & func & H1 & H2 & _ & Hm & (n & Hn & Hfn) & _)%round_Ok.
  apply infer_type_grows, extends_length in H1.
  apply fold_const_grows, extends_length in H2.
  pose proof (Mutate_fresh_Function _ _ _ _ _ Hm Hn Hfn) as Hfresh.
  apply lookup_lt_Some in Hn. lia.
Qed.

Lemma do_while_allocates fuel gv l st l' st' :
  valid_ref (expr l) st → (0 ≤ i l < loop_limit)%Z →
  do_while infer_type fold_const fuel gv l st = Ok (l', st') →
  length (heap st) + Z.to_nat (loop_limit - i l) ≤ length (heap st').
Proof.
  unfold loop_limit. revert l st.
  induction fuel as [|fuel IH]; intros l st Hv Hi; [done|]. simpl.
  intros (l1 & st1 & Hr & Hrest)%bind_Ok.
  destruct (round_fresh _ _ infer_type_grows fold_const_grows _ _ _ _ _ Hv Hr)
    as (Hne & Hv1 & Hi1).
  pose proof (round_allocates _ _ _ _ _ Hr) as Hlen.
  unfold continue, loop_limit in Hrest.
  rewrite bool_decide_eq_true_2 in Hrest by done. simpl in Hrest.
  case_bool_decide.
  - specialize (IH l1 st1 Hv1). unfold loop_limit in IH. 
    assert (length (heap st1) + Z.to_nat (1000 - i l1) ≤ length (heap st')) by (apply IH; [lia | done]).
    lia.
  - injection Hrest as <- <-. lia.
Qed.
End Growth.

(** * Further properties of the code *)

(** X1: a call to [dyn.tile] whose argument 1 is a constant of rank 1 is
    rewritten into a freshly allocated call to the static [tile], whose
    [reps] is the contents of the constant and whose only argument is the
    data argument; the attributes and type arguments of the original call
    are not carried over. *)
Theorem X1_dyn_tile_becomes_static pre post st args attrs tys a0 a1 rps :
  heap st !! post = Some (Call dyn_tile_op_ args attrs tys) →
  args !! 0 = Some a0 → args !! 1 = Some a1 →
  heap st !! a1 = Some (Constant rps) →
  ndim rps = 1%Z → tensor_ok rps →
  Rewrite_ pre post st =
    Ok (length (heap st),
        push (Call (OpRegistry.Get "tile") [a0] (AttrsTile {| reps := data rps |}) []) st).
Proof. apply Rewrite_tile_fires. Qed.

Lemma X1_witness :
  Rewrite_ 2 2 (state_of tile_program) =
    Ok (3, push (Call (OpRegistry.Get "tile") [0] (AttrsTile {| reps := [2%Z; 3%Z] |}) [])
             (state_of tile_program)).
Proof.
  apply (X1_dyn_tile_becomes_static 2 2 (state_of tile_program) [0; 1] NullAttrs []
           0 1 shape_2_3); reflexivity.
Defined.

(** X2: whenever the hook returns, it has either returned the call it was
    given and left the state alone, or appended exactly one node to the
    store and returned it: a call to the static counterpart of a dynamic
    target, with argument 0 of the original call as its only argument and no
    type arguments.  No existing node is changed and the memo table is not
    touched. *)
Theorem X2_hook_returns_post_or_one_new_static_call pre post st r st' :
  Rewrite_ pre post st = Ok (r, st') →
  (r = post ∧ st' = st) ∨
  ∃ op args attrs tys a0 new_attrs,
    heap st !! post = Some (Call op args attrs tys) ∧
    is_dynamic_target op = true ∧
    args !! 0 = Some a0 ∧
    r = length (heap st) ∧
    heap st' = (heap st ++ [Call (static_counterpart op) [a0] new_attrs []])%list ∧
    memo_ st' = memo_ st.
Proof.
  intros [Hsame | (op & args & attrs & tys & a0 & at' & out & Hp & Ht & H0 & Hr & -> & _)]%Rewrite_outcome.
  - by left.
  - right. exists op, args, attrs, tys, a0, at'. by split_and!.
Qed.

Lemma X2_witness :
  (4 = 2 ∧ push (Call (OpRegistry.Get "reshape") [0]
                  (AttrsReshape {| newshape := [2%Z; 3%Z]; reverse := false |}) [])
             (state_of reshape_program) = state_of reshape_program) ∨
  ∃ op args attrs tys a0 new_attrs,
    heap (state_of reshape_program) !! 2 = Some (Call op args attrs tys) ∧
    is_dynamic_target op = true ∧
    args !! 0 = Some a0 ∧
    4 = length (heap (state_of reshape_program)) ∧
    heap (push (Call (OpRegistry.Get "reshape") [0]
                  (AttrsReshape {| newshape := [2%Z; 3%Z]; reverse := false |}) [])
             (state_of reshape_program))
      = (heap (state_of reshape_program) ++ [Call (static_counterpart op) [a0] new_attrs []])%list ∧
    memo_ (push (Call (OpRegistry.Get "reshape") [0]
                   (AttrsReshape {| newshape := [2%Z; 3%Z]; reverse := false |}) [])
              (state_of reshape_program)) = memo_ (state_of reshape_program).
Proof.
  apply (X2_hook_returns_post_or_one_new_static_call 2 2 (state_of reshape_program)).
  reflexivity.
Defined.

(** X3: the hook is idempotent.  Applied to the call it has just returned,
    in the state it has just left, it returns that call again and changes
    nothing: a static call is no target of any rule. *)
Theorem X3_hook_is_idempotent pre pre' post st r st' :
  Rewrite_ pre post st = Ok (r, st') →
  Rewrite_ pre' r st' = Ok (r, st').
Proof.
  intros H.
  destruct (Rewrite_outcome _ _ _ _ _ H)
    as [[-> ->] | (op & args & attrs & tys & a0 & at' & out & _ & _ & _ & -> & -> & _)].
  - exact H.
  - eapply Rewrite_not_target; [|apply static_counterpart_not_target].
    simpl. by rewrite lookup_app_r, Nat.sub_diag.
Qed.

Lemma X3_witness :
  Rewrite_ 0 4 (push (Call (OpRegistry.Get "reshape") [0]
                        (AttrsReshape {| newshape := [2%Z; 3%Z]; reverse := false |}) [])
                   (state_of reshape_program))
  = Ok (4, push (Call (OpRegistry.Get "reshape") [0]
                   (AttrsReshape {| newshape := [2%Z; 3%Z]; reverse := false |}) [])
              (state_of reshape_program)).
Proof.
  apply (X3_hook_is_idempotent 2 0 2 (state_of reshape_program)). reflexivity.
Defined.

(** X4: one call of the hook writes at most one line to the standard
    output, and none at all unless the operator of the call is [dyn.topk]. *)
Theorem X4_only_topk_writes_output pre post st r st' op args attrs tys :
  heap st !! post = Some (Call op args attrs tys) →
  Rewrite_ pre post st = Ok (r, st') →
  ∃ out, stdout st' = (stdout st ++ out)%list ∧ length out ≤ 1 ∧
         (op ≠ dyn_topk_op_ → out = []).
Proof.
  intros Hpost
    [[-> ->] | (op' & args' & attrs' & tys' & a0 & at' & out & Hp & _ & _ & _ & -> & Hout & Hlen)]%Rewrite_outcome.
  - exists []. rewrite app_nil_r. split_and!; [done | simpl; lia | done].
  - rewrite Hpost in Hp. injection Hp as <- <- <- <-. by exists out.
Qed.

Lemma X4_witness :
  ∃ out, stdout (push (Call (OpRegistry.Get "reshape") [0]
                         (AttrsReshape {| newshape := [2%Z; 3%Z]; reverse := false |}) [])
                    (state_of reshape_program))
         = (stdout (state_of reshape_program) ++ out)%list ∧ length out ≤ 1 ∧
         (dyn_reshape_op_ ≠ dyn_topk_op_ → out = []).
Proof.
  apply (X4_only_topk_writes_output 2 2 (state_of reshape_program) 4 _ dyn_reshape_op_
           [0; 1] NullAttrs []); reflexivity.
Defined.

(** X5: whatever the traversal of the children does, a function node
    returned by [DispatchVisitExpr] has no declared return type. *)
Theorem X5_dispatch_never_returns_a_typed_function visit e st r st' ps b rt tps fa :
  DispatchVisitExpr visit e st = Ok (r, st') →
  heap st' !! r = Some (Function ps b rt tps fa) →
  rt = None.
Proof. apply DispatchVisitExpr_untyped. Qed.

Lemma X5_witness : (None : option RelayType) = None.
Proof.
  apply (X5_dispatch_never_returns_a_typed_function (VisitExpr 3) 3 (state_of reshape_program)
           6 (with_memo (<[2 := 4]> (<[1 := 1]> (<[0 := 0]> ∅)))
                (state_of (reshape_program ++
                   [ Call (OpRegistry.Get "reshape") [0]
                       (AttrsReshape {| newshape := [2%Z; 3%Z]; reverse := false |}) [];
                     Function [0] 4 (Some (TensorType [2%Z; 3%Z] "float32")) [] NullAttrs;
                     Function [0] 4 None [] NullAttrs ])))
           [0] 4 None [] NullAttrs).
  - vm_compute. reflexivity.
  - reflexivity.
Defined.

(** X6: whatever the collaborator passes do, an expression returned by
    [DynamicToStatic] is a function node without declared return type. *)
Theorem X6_driver_returns_an_untyped_function infer_type fold_const f md st e st' :
  DynamicToStatic infer_type fold_const f md st = Ok (e, st') →
  ∃ ps b tps fa, heap st' !! e = Some (Function ps b None tps fa).
Proof. apply DynamicToStatic_result. Qed.

Lemma X6_witness :
  ∃ ps b tps fa,
    heap (state_of (static_program ++ replicate 1000 (Function [0] 1 None [] NullAttrs)))
      !! 1002 = Some (Function ps b None tps fa).
Proof.
  apply (X6_driver_returns_an_untyped_function no_op_pass no_op_pass 2 (main_module 2)
           (state_of static_program)).
  vm_compute. reflexivity.
Defined.

(** X7: the downcast to [Function] in the pass function of
    [ConvertDynamicToStatic] never fails: the pass function returns exactly
    what [DynamicToStatic] returns, result and failure alike. *)
Theorem X7_pass_function_is_the_driver infer_type fold_const f md pc st :
  pass_func infer_type fold_const f md pc st
  = DynamicToStatic infer_type fold_const f md st.
Proof.
  unfold pass_func, bind at 1.
  destruct (DynamicToStatic infer_type fold_const f md st) as [[e st']| | |] eqn:Hd;
    simpl; try done.
  apply DynamicToStatic_result in Hd as (ps & b & tps & fa & He).
  unfold Downcast_Function. by rewrite (bind_step _ _ _ _ _ (deref_Ok _ _ _ He)).
Qed.

(** X8: when the target function is bound in the module, the lookup in the
    reverse map finds a global variable, and that variable is bound to the
    target (one of them, when several are). *)
Theorem X8_reverse_map_finds_a_binding md f gv0 :
  functions md !! gv0 = Some f →
  ∃ gv, reverse_map md !! f = Some gv ∧ functions md !! gv = Some f.
Proof.
  intros Hgv0. destruct (reverse_map_spec md f) as [Hsome Hnone].
  destruct (reverse_map md !! f) as [gv|] eqn:Hgv.
  - exists gv. split; [done | by apply Hsome].
  - exfalso. by apply (proj1 Hnone eq_refl gv0).
Qed.

Lemma X8_witness :
  ∃ gv, reverse_map (main_module 3) !! 3 = Some gv ∧
        functions (main_module 3) !! gv = Some 3.
Proof. apply (X8_reverse_map_finds_a_binding (main_module 3) 3 "main"). reflexivity. Defined.

(** X9: when the collaborator passes only add to the store, the loop never
    sees two equal references: every run that returns has gone through all
    1000 rounds, ends with [pre] different from [expr], and has allocated at
    least one node in each round. *)
Theorem X9_every_returning_run_takes_1000_rounds infer_type fold_const f md st :
  (∀ md', grows (infer_type md')) →
  (∀ md', grows (fold_const md')) →
  valid_ref f st →
  match DynamicToStatic_run infer_type fold_const f md st with
  | Ok (l, st') =>
      i l = 1000%Z ∧ pre l ≠ expr l ∧ length (heap st) + 1000 ≤ length (heap st')
  | _ => True
  end.
Proof.
  intros Hinfer Hfold Hv.
  destruct (DynamicToStatic_run infer_type fold_const f md st) as [[l st']| | |] eqn:Hrun;
    [|done..].
  destruct (DynamicToStatic_hits_cap _ _ Hinfer Hfold _ _ _ _ _ Hv Hrun) as [Hi Hne].
  split_and!; [done | done |].
  unfold DynamicToStatic_run in Hrun.
  apply bind_Ok in Hrun as (gv & s1 & Hgv & Hrun).
  unfold Map_at in Hgv. destruct (reverse_map md !! f); [|done].
  injection Hgv as <- <-.
  pose proof (do_while_allocates _ _ Hinfer Hfold (Z.to_nat loop_limit) s
                (initial f md) st l st' Hv) as Hlen.
  unfold loop_limit in Hlen, Hrun. simpl in Hlen.
  specialize (Hlen ltac:(lia) Hrun). lia.
Qed.

Lemma X9_witness :
  match DynamicToStatic_run no_op_pass no_op_pass 2 (main_module 2) (state_of static_program) with
  | Ok (l, st') =>
      i l = 1000%Z ∧ pre l ≠ expr l ∧
      length (heap (state_of static_program)) + 1000 ≤ length (heap st')
  | _ => True
  end.
Proof.
  apply (X9_every_returning_run_takes_1000_rounds no_op_pass no_op_pass 2 (main_module 2)
           (state_of static_program)).
  - apply no_op_pass_grows.
  - apply no_op_pass_grows.
  - unfold valid_ref. simpl. lia.
Defined.

(** X10: a failure of a collaborator pass in the first round is the outcome
    of the whole call: of [InferType] whatever [FoldConstant] is, and of
    [FoldConstant] run on the module [InferType] returned. *)
Theorem X10_pass_failures_are_propagated infer_type fold_const f md st gv msg :
  reverse_map md !! f = Some gv →
  infer_type md st = Fatal msg
  ∨ (∃ m1 st1, infer_type md st = Ok (m1, st1) ∧ fold_const m1 st1 = Fatal msg) →
  DynamicToStatic infer_type fold_const f md st = Fatal msg.
Proof.
  intros Hgv Hfail.
  unfold DynamicToStatic, DynamicToStatic_run, bind at 1, bind at 1, Map_at.
  rewrite Hgv. simpl. unfold bind at 1, round, bind at 1. simpl.
  destruct Hfail as [-> | (m1 & st1 & -> & Hf)]; [done|]. simpl.
  unfold bind at 1. by rewrite Hf.
Qed.

Lemma X10_witness :
  DynamicToStatic (λ _, fail "type error") no_op_pass 3 (main_module 3)
    (state_of reshape_program) = Fatal "type error".
Proof.
  apply (X10_pass_failures_are_propagated (λ _, fail "type error") no_op_pass 3
           (main_module 3) (state_of reshape_program) "main"); [reflexivity|].
  by left.
Defined.
